(** * maplibre-contour: elevation decoding ([src/decode-image.ts])

    A shallow embedding of [decodeParsedImage], the function that turns an
    RGBA pixel buffer into a grid of elevations, together with the
    properties the specification states about it.

    JavaScript numbers are IEEE 754 binary64 values and the elements of a
    [Float32Array] are binary32 values.  Both are modelled by the Standard
    Library's executable specification of IEEE 754 arithmetic
    ([SpecFloat]), instantiated at precision 53 and 24.

    Conventions of the model:
    - [width] and [height] are integers, as image dimensions are;
    - a pixel buffer ([Uint8ClampedArray]) is the list of its elements,
      integers in [0, 255]; reading past its end yields [undefined];
    - [decodeParsedImage] is the function where every array it asks
      for can be allocated, so that constructing a [Float32Array] fails
      for a negative length only; [decodeParsedImage_in] is the function
      in an engine of a given capacity, which also refuses the lengths
      that are too large, and the two agree wherever the latter returns;
    - the encoding is the string the function receives at run time. *)

From Stdlib Require Import ZArith Lia List String SpecFloat.
From stdpp Require Import base list gmap strings.
From Equations Require Import Equations.

Open Scope Z_scope.

(** ** JavaScript numbers *)

Module Number.

(** A JavaScript [number]: binary64, round to nearest, ties to even. *)
Definition prec : Z := 53.
Definition emax : Z := 1024.

(** An integer literal, or an integer read out of a typed array. *)
Definition of_int (z : Z) : spec_float := binary_normalize prec emax z 0 false.

Definition add : spec_float → spec_float → spec_float := SFadd prec emax.
Definition sub : spec_float → spec_float → spec_float := SFsub prec emax.
Definition mul : spec_float → spec_float → spec_float := SFmul prec emax.
Definition div : spec_float → spec_float → spec_float := SFdiv prec emax.
Definition neg : spec_float → spec_float := SFopp.

(** The literal [0.1]: the binary64 value nearest to one tenth,
    0x1.999999999999ap-4. *)
Definition one_tenth : spec_float := S754_finite false 7205759403792794 (-56).

(** [ToNumber] on what an indexed read of a [Uint8ClampedArray] yields:
    the element, or [undefined] (here [None]) out of range, which
    converts to NaN. *)
Definition ToNumber (v : option Z) : spec_float :=
  match v with
  | Some z => of_int z
  | None => S754_nan
  end.

Definition is_finite (x : spec_float) : bool :=
  match x with
  | S754_zero _ | S754_finite _ _ _ => true
  | S754_infinity _ | S754_nan => false
  end.

End Number.

(** ** Elements of a [Float32Array] *)

Module Float32.

Definition prec : Z := 24.
Definition emax : Z := 128.

(** Storing a number into a [Float32Array] rounds it to binary32
    ([Math.fround]). *)
Definition fround (x : spec_float) : spec_float :=
  match x with
  | S754_finite s m e => binary_normalize prec emax (cond_Zopp s (Zpos m)) e s
  | _ => x
  end.

(** A freshly constructed array holds [+0] everywhere. *)
Definition zero : spec_float := S754_zero false.

End Float32.

(** [bounded_by K x]: [x] is a zero, or a finite number of magnitude below
    [2 ^ K] (its mantissa has [d] binary digits and [d + e ≤ K]). *)
Definition bounded_by (K : Z) (x : spec_float) : Prop :=
  match x with
  | S754_zero _ => True
  | S754_finite _ m e => Zpos (digits2_pos m) + e ≤ K
  | S754_infinity _ | S754_nan => False
  end.

(** [same_value M E v e]: [M * 2 ^ E] and [v * 2 ^ e] are the same number. *)
Definition same_value (M E v e : Z) : Prop :=
  M * 2 ^ (E - Z.min E e) = v * 2 ^ (e - Z.min E e).

(** [scaled e x = Some v]: the number [x] is exactly [v * 2 ^ e]. *)
Definition scaled (e : Z) (x : spec_float) : option Z :=
  match x with
  | S754_zero _ => Some 0
  | S754_finite s m ex =>
      if decide (e ≤ ex) then Some (cond_Zopp s (Zpos m * 2 ^ (ex - e)))
      else if decide (Zpos m mod 2 ^ (e - ex) = 0)
           then Some (cond_Zopp s (Zpos m / 2 ^ (e - ex)))
           else None
  | S754_infinity _ | S754_nan => None
  end.

#[global] Instance spec_float_eq_dec : EqDecision spec_float.
Proof. solve_decision. Defined.

(** ** The decoder *)

(** An element of a [Uint8ClampedArray] is an integer in [0, 255]. *)
Definition is_uint8 (b : Z) : Prop := 0 ≤ b < 256.

Definition Uint8ClampedArray_wf (input : list Z) : Prop := Forall is_uint8 input.

Inductive exception : Type :=
  | RangeError.

Record DemTile : Type := mkDemTile {
  width : Z;
  height : Z;
  data : list spec_float;
}.

(** [(r, g, b) => -10000 + (r * 256 * 256 + g * 256 + b) * 0.1] *)
Definition decoder_mapbox (r g b : option Z) : spec_float :=
  Number.add (Number.neg (Number.of_int 10000))
    (Number.mul
       (Number.add
          (Number.add
             (Number.mul (Number.mul (Number.ToNumber r) (Number.of_int 256))
                         (Number.of_int 256))
             (Number.mul (Number.ToNumber g) (Number.of_int 256)))
          (Number.ToNumber b))
       Number.one_tenth).

(** [(r, g, b) => r * 256 + g + b / 256 - 32768] *)
Definition decoder_terrarium (r g b : option Z) : spec_float :=
  Number.sub
    (Number.add
       (Number.add (Number.mul (Number.ToNumber r) (Number.of_int 256))
                   (Number.ToNumber g))
       (Number.div (Number.ToNumber b) (Number.of_int 256)))
    (Number.of_int 32768).

(** [encoding === "mapbox" ? ... : ...] *)
Definition select_decoder (encoding : string)
  : option Z → option Z → option Z → spec_float :=
  if decide (encoding = "mapbox") then decoder_mapbox else decoder_terrarium.

(** [new Float32Array(len)] where every length can be allocated: only a
    negative length raises a [RangeError].  [Float32Array_new_in] below
    adds the lengths an engine refuses. *)
Definition Float32Array_new (len : Z) : exception + list spec_float :=
  if decide (len < 0) then inl RangeError
  else inr (replicate (Z.to_nat len) Float32.zero).

(** [data[k] = v]: the value is rounded to binary32; an index past the end
    of a typed array is ignored. *)
Definition Float32Array_set (arr : list spec_float) (k : nat) (v : spec_float)
  : list spec_float :=
  <[k := Float32.fround v]> arr.

(** [for (let i = 0; i < input.length; i += 4)
       data[i / 4] = decoder(input[i], input[i + 1], input[i + 2]);]
    started at [i]. The counter only takes multiples of four, so [i / 4] is
    an integer index. *)
Equations? decode_loop (decoder : option Z → option Z → option Z → spec_float)
    (input : list Z) (i : nat) (arr : list spec_float)
  : list spec_float by wf (length input - i)%nat lt :=
  decode_loop decoder input i arr with decide (i < length input)%nat := {
    | left _ =>
        decode_loop decoder input (i + 4)
          (Float32Array_set arr (i / 4)
             (decoder (input !! i) (input !! (i + 1)%nat) (input !! (i + 2)%nat)))
    | right _ => arr }.
Proof. lia. Qed.

(** [decodeParsedImage(width, height, encoding, input)]: the exception
    raised, or the [{ width, height, data }] returned. *)
Definition decodeParsedImage (width height : Z) (encoding : string)
    (input : list Z) : exception + DemTile :=
  let decoder := select_decoder encoding in
  match Float32Array_new (width * height) with
  | inl e => inl e
  | inr arr => inr (mkDemTile width height (decode_loop decoder input 0 arr))
  end.

(** ** Lengths an engine refuses *)

(** The largest length [ToIndex] accepts, [2 ^ 53 - 1]. *)
Definition max_array_length : Z := 9007199254740991.

(** [new Float32Array(len)] in an engine that can allocate arrays of at
    most [capacity] elements: a [RangeError] for a negative length, for a
    length above [2 ^ 53 - 1] and for one above the capacity. *)
Definition Float32Array_new_in (capacity len : Z)
  : exception + list spec_float :=
  if decide (len < 0) then inl RangeError
  else if decide (Z.min capacity max_array_length < len) then inl RangeError
  else inr (replicate (Z.to_nat len) Float32.zero).

(** [decodeParsedImage(width, height, encoding, input)] in such an
    engine. *)
Definition decodeParsedImage_in (capacity width height : Z)
    (encoding : string) (input : list Z) : exception + DemTile :=
  let decoder := select_decoder encoding in
  match Float32Array_new_in capacity (width * height) with
  | inl e => inl e
  | inr arr => inr (mkDemTile width height (decode_loop decoder input 0 arr))
  end.

(** ** The formulas of the specification *)

(** [-10000 + (R·65536 + G·256 + B) · 0.1]: the integer
    [R·65536 + G·256 + B], multiplied by the binary64 number [0.1] and
    added to [-10000] in binary64. *)
Definition mapbox_elevation (R G B : Z) : spec_float :=
  Number.add (Number.neg (Number.of_int 10000))
    (Number.mul (Number.of_int (R * 65536 + G * 256 + B)) Number.one_tenth).

(** [R·256 + G + B/256 - 32768], evaluated in binary64. *)
Definition terrarium_elevation (R G B : Z) : spec_float :=
  Number.sub
    (Number.add
       (Number.add (Number.mul (Number.of_int R) (Number.of_int 256))
                   (Number.of_int G))
       (Number.div (Number.of_int B) (Number.of_int 256)))
    (Number.of_int 32768).

(** The value the loop stores for pixel [p]. *)
Definition pixel (decoder : option Z → option Z → option Z → spec_float)
    (input : list Z) (p : nat) : spec_float :=
  Float32.fround
    (decoder (input !! (4 * p)%nat) (input !! (4 * p + 1)%nat)
             (input !! (4 * p + 2)%nat)).

(** A check over all 256 values of a byte. *)
Definition all_uint8 (P : Z → bool) : bool :=
  forallb P (map Z.of_nat (seq 0 256)).

(** ** The same function over a store of objects

    [decodeParsedImage] receives a reference to the caller's buffer and
    returns a reference to a new array.  This second reading keeps the
    objects in a store, next to the module-level variables of
    [decode-image.ts], and performs every read and write of the loop
    through it. *)

Module Heap.

Definition loc : Type := positive.

Inductive object : Type :=
  | Uint8ClampedArray (elems : list Z)
  | Float32Array (elems : list spec_float).

(** [let offscreenCanvas; let offscreenContext; let canvas;
     let canvasContext; export let pngs = []] *)
Record module_variables : Type := mkModuleVariables {
  offscreenCanvas : option loc;
  offscreenContext : option loc;
  canvas : option loc;
  canvasContext : option loc;
  pngs : list loc;
}.

Record state : Type := mkState {
  heap : gmap loc object;
  globals : module_variables;
}.

(** The object returned by [decodeParsedImage]: [data] is a reference. *)
Record DemTileRef : Type := mkDemTileRef {
  ref_width : Z;
  ref_height : Z;
  ref_data : loc;
}.

(** [ToUint8Clamp]: NaN and negative numbers give 0, numbers above 255
    give 255, the others are rounded to the nearest integer, ties to
    even. *)
Definition ToUint8Clamp (x : spec_float) : Z :=
  match x with
  | S754_finite false m e =>
      if decide (0 ≤ e) then Z.min 255 (Zpos m * 2 ^ e)
      else
        let d := 2 ^ (- e) in
        let q := Zpos m / d in
        let r := Zpos m mod d in
        Z.min 255
          (if decide (2 * r < d) then q
           else if decide (d < 2 * r) then q + 1
           else if Z.even q then q else q + 1)
  | S754_infinity false => 255
  | _ => 0
  end.

(** [a.length] *)
Definition array_length (σ : gmap loc object) (a : loc) : nat :=
  match σ !! a with
  | Some (Uint8ClampedArray elems) => length elems
  | Some (Float32Array elems) => length elems
  | None => 0%nat
  end.

(** [a[i]] for the pixel buffer; [None] is [undefined]. The loop only
    reads [input], which is a [Uint8ClampedArray]. *)
Definition load (σ : gmap loc object) (a : loc) (i : nat) : option Z :=
  match σ !! a with
  | Some (Uint8ClampedArray elems) => elems !! i
  | _ => None
  end.

(** [a[k] = v], converting [v] to the element type of [a]. *)
Definition store (σ : gmap loc object) (a : loc) (k : nat) (v : spec_float)
  : gmap loc object :=
  match σ !! a with
  | Some (Float32Array elems) =>
      <[a := Float32Array (Float32Array_set elems k v)]> σ
  | Some (Uint8ClampedArray elems) =>
      <[a := Uint8ClampedArray (<[k := ToUint8Clamp v]> elems)]> σ
  | None => σ
  end.

(** A new object gets a location that is not in use. *)
Definition alloc (σ : gmap loc object) (o : object) : loc * gmap loc object :=
  let a := fresh (dom σ) in (a, <[a := o]> σ).

(** The loop, as above; [input.length] is read from the store at each
    test, hence the fuel. *)
Fixpoint decode_loop (fuel : nat)
    (decoder : option Z → option Z → option Z → spec_float)
    (input data : loc) (i : nat) (σ : gmap loc object)
  : option (gmap loc object) :=
  match fuel with
  | O => None
  | S fuel' =>
      if decide (i < array_length σ input)%nat then
        decode_loop fuel' decoder input data (i + 4)
          (store σ data (i / 4)
             (decoder (load σ input i) (load σ input (i + 1)%nat)
                      (load σ input (i + 2)%nat)))
      else Some σ
  end.

Definition decodeParsedImage (fuel : nat) (width height : Z)
    (encoding : string) (input : loc) (st : state)
  : option ((exception + DemTileRef) * state) :=
  let decoder := select_decoder encoding in
  match Float32Array_new (width * height) with
  | inl e => Some (inl e, st)
  | inr arr =>
      let '(data, σ1) := alloc (heap st) (Float32Array arr) in
      match decode_loop fuel decoder input data 0 σ1 with
      | None => None
      | Some σ2 =>
          Some (inr (mkDemTileRef width height data),
                mkState σ2 (globals st))
      end
  end.

(** What a caller can see of an outcome: the exception, or the tile with
    the contents of its array. *)
Definition observe (r : (exception + DemTileRef) * state)
  : option (exception + DemTile) :=
  match r.1 with
  | inl e => Some (inl e)
  | inr t =>
      match heap r.2 !! ref_data t with
      | Some (Float32Array elems) =>
          Some (inr (mkDemTile (ref_width t) (ref_height t) elems))
      | _ => None
      end
  end.

End Heap.

(** ** Sample states *)

(** A store that holds one pixel buffer only. *)
Definition sample_state_1 : Heap.state :=
  Heap.mkState
    {[ 1%positive := Heap.Uint8ClampedArray [128; 1; 128; 255] ]}
    (Heap.mkModuleVariables None None None None []).

(** A store that holds the same bytes elsewhere, next to another array,
    with some module-level variables set. *)
Definition sample_state_2 : Heap.state :=
  Heap.mkState
    {[ 1%positive := Heap.Float32Array [S754_nan];
       7%positive := Heap.Uint8ClampedArray [128; 1; 128; 255] ]}
    (Heap.mkModuleVariables (Some 1%positive) None None None [1%positive]).

(** Discharges [Uint8ClampedArray_wf] on a literal buffer. *)
Ltac solve_wf :=
  unfold Uint8ClampedArray_wf;
  repeat (constructor; [unfold is_uint8; lia|]); constructor.

(** ** The canvas path: [getElevations] and [decodeImageModern]

    The browser supplies the image, the canvas and its 2d context.  Of an
    image the model keeps its size and what the canvas gives back once
    the image has been drawn on it; of a canvas, which object it is and
    its size; of a context, whether there is one. *)

Module Canvas.

(** What can be thrown on this path. *)
Inductive thrown : Type :=
  | Error (message : string)
  | FromDecoder (e : exception)
  | DOMException (name : string).

(** An [ImageBitmap] or [HTMLImageElement].  [img_drawn] is the outcome
    of [drawImage(img, 0, 0, img.width, img.height)] followed by
    [getImageData(0, 0, img.width, img.height).data] on a canvas of the
    size of the image: the bytes read back, or the name of the exception
    the browser raises. *)
Record Image : Type := mkImage {
  img_width : Z;
  img_height : Z;
  img_drawn : string + list Z;
}.

Record canvas : Type := mkCanvas {
  canvas_id : positive;
  canvas_width : Z;
  canvas_height : Z;
}.

(** [getElevations(img, encoding, canvas, canvasContext)]; [canvasContext]
    is [false] for [null].  The second component is the canvas after the
    call. *)
Definition getElevations (img : Image) (encoding : string) (c : canvas)
    (canvasContext : bool) : (thrown + DemTile) * canvas :=
  let c1 := mkCanvas (canvas_id c) (img_width img) (canvas_height c) in
  let c2 := mkCanvas (canvas_id c1) (canvas_width c1) (img_height img) in
  if canvasContext then
    match img_drawn img with
    | inl name => (inl (DOMException name), c2)
    | inr rgba =>
        match decodeParsedImage (img_width img) (img_height img) encoding rgba with
        | inl e => (inl (FromDecoder e), c2)
        | inr tile => (inr tile, c2)
        end
    end
  else (inl (Error "failed to get context"), c2).

(** [let offscreenCanvas; let offscreenContext;] *)
Record module_state : Type := mkModuleState {
  offscreenCanvas : option canvas;
  offscreenContext : bool;
}.

(** Before the first call both variables are [undefined]. *)
Definition initial : module_state := mkModuleState None false.

(** How the promise of a call settles; [Resolved None] is the [null] of a
    canceled call. *)
Inductive settled : Type :=
  | Resolved (value : option DemTile)
  | Rejected (reason : thrown).

(** One call of [decodeImageModern], at the time its bitmap arrives:
    [call_canceled] is the flag of the call then, [call_new_canvas] the
    object [new OffscreenCanvas] would create and [call_getContext]
    whether [getContext("2d")] would return a context. *)
Record call : Type := mkCall {
  call_canceled : bool;
  call_new_canvas : positive;
  call_getContext : bool;
  call_img : Image;
  call_encoding : string;
}.

(** The callback passed to [createImageBitmap(blob).then]. *)
Definition decodeImageModern_then (k : call) (m : module_state)
  : settled * module_state :=
  if call_canceled k then (Resolved None, m)
  else
    let '(c, context) :=
      match offscreenCanvas m with
      | Some c => (c, offscreenContext m)
      | None =>
          (mkCanvas (call_new_canvas k) (img_width (call_img k))
                    (img_height (call_img k)),
           call_getContext k)
      end in
    let '(r, c') := getElevations (call_img k) (call_encoding k) c context in
    (match r with inl e => Rejected e | inr tile => Resolved (Some tile) end,
     mkModuleState (Some c') context).

(** The callbacks of a series of calls, in the order the bitmaps arrive. *)
Fixpoint run (ks : list call) (m : module_state) : list settled * module_state :=
  match ks with
  | [] => ([], m)
  | k :: ks' =>
      let '(s, m1) := decodeImageModern_then k m in
      let '(ss, m2) := run ks' m1 in
      (s :: ss, m2)
  end.

(** An image the browser can draw and read back: it has a positive size
    and [getImageData] returns four bytes per pixel. *)
Definition readable (img : Image) : Prop :=
  0 < img_width img ∧ 0 < img_height img
  ∧ ∃ rgba, img_drawn img = inr rgba
            ∧ Uint8ClampedArray_wf rgba
            ∧ Z.of_nat (length rgba) = 4 * img_width img * img_height img.

(** How a call settles when no context is to be had. *)
Definition without_context (k : call) : settled :=
  if call_canceled k then Resolved None
  else Rejected (Error "failed to get context").

(** A call that is canceled resolves to [null]; one that is not, to a
    tile of the size of its image whose cells are all finite. *)
Definition settles_well (k : call) (s : settled) : Prop :=
  if call_canceled k then s = Resolved None
  else ∃ tile,
      s = Resolved (Some tile)
      ∧ width tile = img_width (call_img k)
      ∧ height tile = img_height (call_img k)
      ∧ Z.of_nat (length (data tile))
        = img_width (call_img k) * img_height (call_img k)
      ∧ Forall (λ x, Number.is_finite x = true) (data tile).

End Canvas.

(** ** Choosing the decoder: [isWorker], [isNodeJs], [defaultDecoder] *)

Module Select.

(** The globals the tests look at.  [self_instanceof] is the value of
    [self instanceof WorkerGlobalScope] where both names are defined. *)
Record environment : Type := mkEnvironment {
  has_WorkerGlobalScope : bool;
  has_self : bool;
  self_instanceof : bool;
  has_window : bool;
}.

Inductive decoder : Type :=
  | decodeImageModern
  | decodeImageOnMainThread
  | decodeImageNode
  | decodeImageOld.

(** [self instanceof WorkerGlobalScope]: a [ReferenceError] ([None]) where
    one of the two names is not defined. *)
Definition eval_instanceof (env : environment) : option bool :=
  if has_self env && has_WorkerGlobalScope env
  then Some (self_instanceof env) else None.

(** [typeof WorkerGlobalScope !== "undefined" && typeof self !== "undefined"
     && self instanceof WorkerGlobalScope] *)
Definition isWorker (env : environment) : option bool :=
  if has_WorkerGlobalScope env then
    if has_self env then eval_instanceof env else Some false
  else Some false.

(** [typeof window === 'undefined'] *)
Definition isNodeJs (env : environment) : bool := negb (has_window env).

(** [offscreenCanvasSupported() ? decodeImageModern : isWorker() ?
     decodeImageOnMainThread : isNodeJs() ? decodeImageNode : decodeImageOld];
    [offscreenCanvasSupported] belongs to another file and is taken as
    given. *)
Definition defaultDecoder (offscreenCanvasSupported : bool)
    (env : environment) : option decoder :=
  if offscreenCanvasSupported then Some decodeImageModern
  else
    match isWorker env with
    | None => None
    | Some true => Some decodeImageOnMainThread
    | Some false =>
        if isNodeJs env then Some decodeImageNode else Some decodeImageOld
    end.

End Select.

(** ** Sample images *)

Definition sample_image : Canvas.Image :=
  Canvas.mkImage 1 1 (inr [128; 1; 128; 255]).

Definition sample_calls : list Canvas.call :=
  [ Canvas.mkCall false 1%positive true sample_image "terrarium";
    Canvas.mkCall true 2%positive true sample_image "mapbox";
    Canvas.mkCall false 3%positive true sample_image "mapbox" ].

(** A first call that gets no context, then calls that could get one. *)
Definition sample_failing_call : Canvas.call :=
  Canvas.mkCall false 1%positive false sample_image "terrarium".

(** Calls canceled before their bitmap arrives. *)
Definition sample_canceled_calls : list Canvas.call :=
  [ Canvas.mkCall true 8%positive true sample_image "mapbox";
    Canvas.mkCall true 9%positive false sample_image "terrarium" ].


(** * Properties *)

(** ** Magnitude of rounded results

    None of the operations of the decoder can overflow: each rounding
    step of [SpecFloat] keeps a value that is below a power of two below
    the next one. *)

Section Digits.

Lemma digits2_pos_bounds (p : positive) :
  2 ^ (Zpos (digits2_pos p) - 1) ≤ Zpos p < 2 ^ Zpos (digits2_pos p).
Proof.
  induction p as [p IH | p IH |]; cbn [digits2_pos].
  - rewrite Pos2Z.inj_succ.
    replace (Z.succ (Zpos (digits2_pos p)) - 1) with (Z.succ (Zpos (digits2_pos p) - 1)) by lia.
    rewrite !Z.pow_succ_r by lia. lia.
  - rewrite Pos2Z.inj_succ.
    replace (Z.succ (Zpos (digits2_pos p)) - 1) with (Z.succ (Zpos (digits2_pos p) - 1)) by lia.
    rewrite !Z.pow_succ_r by lia. lia.
  - cbn. lia.
Qed.

(** A positive mantissa has at most [k] binary digits exactly when it is
    below [2 ^ k]. *)
Lemma digits2_pos_le (p : positive) (k : Z) :
  Zpos (digits2_pos p) ≤ k ↔ Zpos p < 2 ^ k.
Proof.
  pose proof (digits2_pos_bounds p) as [Hlo Hhi].
  split; intros H.
  - eapply Z.lt_le_trans; [exact Hhi|].
    apply Z.pow_le_mono_r; lia.
  - destruct (Z_lt_le_dec k (Zpos (digits2_pos p))) as [Hlt|]; [|lia].
    exfalso.
    assert (0 ≤ k)
      by (destruct (Z_lt_le_dec k 0); [rewrite Z.pow_neg_r in H by lia|]; lia).
    assert (2 ^ k ≤ 2 ^ (Zpos (digits2_pos p) - 1))
      by (apply Z.pow_le_mono_r; lia).
    lia.
Qed.

Lemma pos_iter_xO (m d : positive) :
  Zpos (Pos.iter xO m d) = Zpos m * 2 ^ Zpos d.
Proof.
  induction d as [|d IH] using Pos.peano_ind.
  - cbn. lia.
  - rewrite Pos.iter_succ, Pos2Z.inj_xO, IH, Pos2Z.inj_succ, Z.pow_succ_r by lia.
    lia.
Qed.

End Digits.

Section Shift.

Lemma shr_1_m (r : shr_record) :
  0 ≤ shr_m r → shr_m (shr_1 r) = shr_m r / 2.
Proof.
  destruct r as [m b s]; cbn [shr_m]; intros Hm.
  destruct m as [|[p|p|]|p]; cbn [shr_1 shr_m]; try lia; try reflexivity.
  - apply Z.div_unique with (r := 1); lia.
  - apply Z.div_unique with (r := 0); lia.
Qed.

Lemma iter_shr_1_m (p : positive) (r : shr_record) :
  0 ≤ shr_m r → shr_m (SpecFloat.iter_pos shr_1 p r) = shr_m r / 2 ^ Zpos p.
Proof.
  revert r.
  assert (Hpow : ∀ q : positive, 0 < 2 ^ Zpos q)
    by (intros; apply Z.pow_pos_nonneg; lia).
  induction p as [p IH | p IH |]; intros r Hr; cbn [SpecFloat.iter_pos].
  - assert (H1 : 0 ≤ shr_m (shr_1 r))
      by (rewrite shr_1_m by exact Hr; apply Z.div_pos; lia).
    assert (H2 : 0 ≤ shr_m (SpecFloat.iter_pos shr_1 p (shr_1 r)))
      by (rewrite IH by exact H1; apply Z.div_pos; [lia | apply Hpow]).
    rewrite IH by exact H2. rewrite IH by exact H1.
    rewrite shr_1_m by exact Hr.
    pose proof (Hpow p).
    rewrite !Z.div_div by lia.
    f_equal.
    replace (Zpos p~1) with (1 + Zpos p + Zpos p) by lia.
    rewrite !Z.pow_add_r by lia. lia.
  - assert (H2 : 0 ≤ shr_m (SpecFloat.iter_pos shr_1 p r))
      by (rewrite IH by exact Hr; apply Z.div_pos; [lia | apply Hpow]).
    rewrite IH by exact H2. rewrite IH by exact Hr.
    pose proof (Hpow p).
    rewrite !Z.div_div by lia.
    f_equal.
    replace (Zpos p~0) with (Zpos p + Zpos p) by lia.
    rewrite !Z.pow_add_r by lia. lia.
  - rewrite shr_1_m by exact Hr. reflexivity.
Qed.

Lemma shr_record_of_loc_m (m : Z) (l : location) :
  shr_m (shr_record_of_loc m l) = m.
Proof. destruct l as [|[]]; reflexivity. Qed.

(** Shifting a mantissa right keeps it non-negative and keeps the value
    it stands for below any power of two that bounded it. *)
Lemma shr_bound (r : shr_record) (e n K : Z) :
  0 ≤ shr_m r < 2 ^ (K - e) → e ≤ K → e + n ≤ K →
  0 ≤ shr_m (fst (shr r e n)) < 2 ^ (K - snd (shr r e n))
  ∧ snd (shr r e n) ≤ K.
Proof.
  intros [Hlo Hhi] He Hn. unfold shr.
  destruct n as [|p|p]; cbn [fst snd]; [lia | | lia].
  rewrite iter_shr_1_m by exact Hlo.
  assert (0 < 2 ^ Zpos p) by (apply Z.pow_pos_nonneg; lia).
  split; [split|lia].
  - apply Z.div_pos; lia.
  - apply Z.div_lt_upper_bound; [lia|].
    rewrite <- Z.pow_add_r by lia.
    replace (Zpos p + (K - (e + Zpos p))) with (K - e) by lia.
    exact Hhi.
Qed.

End Shift.

Section Rounding.
Variables prec emax : Z.
Hypothesis prec_nonneg : 0 ≤ prec.

Lemma Zdigits2_le (m K : Z) :
  0 ≤ m < 2 ^ K → 0 ≤ K → Zdigits2 m ≤ K.
Proof.
  intros [Hlo Hhi] HK. destruct m as [|p|p]; cbn [Zdigits2]; [lia| |lia].
  apply digits2_pos_le. exact Hhi.
Qed.

Lemma pow2_bound_nonneg (m K : Z) : 0 ≤ m < 2 ^ K → 0 ≤ K.
Proof.
  intros [Hlo Hhi].
  destruct (Z_lt_le_dec K 0); [rewrite Z.pow_neg_r in Hhi by lia|]; lia.
Qed.

Lemma shr_fexp_bound (m e : Z) (l : location) (K : Z) :
  0 ≤ m < 2 ^ (K - e) → emin prec emax ≤ K →
  0 ≤ shr_m (fst (shr_fexp prec emax m e l))
    < 2 ^ (K - snd (shr_fexp prec emax m e l))
  ∧ snd (shr_fexp prec emax m e l) ≤ K.
Proof.
  intros Hm Hmin. unfold shr_fexp.
  pose proof (pow2_bound_nonneg _ _ Hm) as HK.
  pose proof (Zdigits2_le _ _ Hm HK) as Hd.
  apply shr_bound.
  - rewrite shr_record_of_loc_m. exact Hm.
  - lia.
  - unfold fexp. lia.
Qed.

Lemma round_nearest_even_bound (m : Z) (l : location) :
  m ≤ round_nearest_even m l ≤ m + 1.
Proof.
  unfold round_nearest_even.
  destruct l as [|[]]; try destruct (Z.even m); lia.
Qed.

(** Rounding a mantissa that stands for a value below [2 ^ K] gives a
    finite number below [2 ^ (K + 1)], as long as that is in range. *)
Lemma binary_round_aux_bounded (sx : bool) (mx ex : Z) (lx : location) (K : Z) :
  emin prec emax ≤ K → K + 1 ≤ emax - prec →
  0 ≤ mx < 2 ^ (K - ex) →
  bounded_by (K + 1) (binary_round_aux prec emax sx mx ex lx).
Proof.
  intros Hmin Hmax Hm. unfold binary_round_aux.
  pose proof (shr_fexp_bound mx ex lx K Hm Hmin) as [H1 He1].
  destruct (shr_fexp prec emax mx ex lx) as [r1 e1]; cbn [fst snd] in *.
  pose proof (round_nearest_even_bound (shr_m r1) (loc_of_shr_record r1)) as Hr.
  set (m1 := round_nearest_even (shr_m r1) (loc_of_shr_record r1)) in *.
  assert (Hm1 : 0 ≤ m1 < 2 ^ (K + 1 - e1)).
  { replace (K + 1 - e1) with (Z.succ (K - e1)) by lia.
    rewrite Z.pow_succ_r by lia. lia. }
  pose proof (shr_fexp_bound m1 e1 loc_Exact (K + 1) Hm1 ltac:(lia)) as [H2 He2].
  destruct (shr_fexp prec emax m1 e1 loc_Exact) as [r2 e2]; cbn [fst snd] in *.
  destruct (shr_m r2) as [|m2|m2]; cbn [bounded_by]; [exact I| |lia].
  destruct (Z.leb_spec e2 (emax - prec)); cbn [bounded_by]; [|lia].
  destruct H2 as [_ H2]. apply digits2_pos_le in H2. lia.
Qed.

Lemma shl_align_bound (mx : positive) (ex ex' K : Z) :
  Zpos mx < 2 ^ (K - ex) →
  Zpos (fst (shl_align mx ex ex')) < 2 ^ (K - snd (shl_align mx ex ex'))
  ∧ (ex' ≤ ex → snd (shl_align mx ex ex') = ex').
Proof.
  intros Hm. unfold shl_align.
  assert (HK : 0 ≤ K - ex) by (apply (pow2_bound_nonneg (Zpos mx)); lia).
  destruct (ex' - ex) as [|d|d] eqn:Hd; cbn [fst snd].
  - split; [exact Hm | lia].
  - split; [exact Hm | lia].
  - split; [|reflexivity].
    rewrite pos_iter_xO.
    replace (K - ex') with (K - ex + Zpos d) by lia.
    rewrite Z.pow_add_r by lia.
    apply Z.mul_lt_mono_pos_r; [apply Z.pow_pos_nonneg; lia | exact Hm].
Qed.

Lemma binary_round_bounded (sx : bool) (mx : positive) (ex K : Z) :
  emin prec emax ≤ K → K + 1 ≤ emax - prec →
  Zpos mx < 2 ^ (K - ex) →
  bounded_by (K + 1) (binary_round prec emax sx mx ex).
Proof.
  intros Hmin Hmax Hm. unfold binary_round.
  pose proof (shl_align_bound mx ex
                (fexp prec emax (Zpos (digits2_pos mx) + ex)) K Hm) as [Hz _].
  destruct (shl_align mx ex _) as [mz ez]; cbn [fst snd] in Hz.
  apply binary_round_aux_bounded; lia.
Qed.

Lemma binary_normalize_bounded (m e : Z) (szero : bool) (K : Z) :
  emin prec emax ≤ K → K + 1 ≤ emax - prec →
  Z.abs m < 2 ^ (K - e) →
  bounded_by (K + 1) (binary_normalize prec emax m e szero).
Proof.
  intros Hmin Hmax Hm. unfold binary_normalize.
  destruct m as [|p|p]; [exact I | |];
    apply binary_round_bounded; try assumption; cbn [Z.abs] in Hm; lia.
Qed.

Lemma bounded_by_mono (K K' : Z) (x : spec_float) :
  bounded_by K x → K ≤ K' → bounded_by K' x.
Proof. destruct x; cbn [bounded_by]; lia. Qed.

Lemma bounded_by_opp (K : Z) (x : spec_float) :
  bounded_by K x → bounded_by K (SFopp x).
Proof. destruct x; cbn [bounded_by SFopp]; tauto. Qed.

(** The aligned mantissas of an addition or subtraction. *)
Lemma aligned_sum_bound (sx sy : bool) (mx my : positive) (ex ey K : Z) :
  Zpos (digits2_pos mx) + ex < K → Zpos (digits2_pos my) + ey < K →
  let ez := Z.min ex ey in
  let ax := cond_Zopp sx (Zpos (fst (shl_align mx ex ez))) in
  let ay := cond_Zopp sy (Zpos (fst (shl_align my ey ez))) in
  Z.abs (ax + ay) < 2 ^ (K - ez) ∧ Z.abs (ax - ay) < 2 ^ (K - ez).
Proof.
  intros Hx Hy ez ax ay.
  assert (Hmx : Zpos mx < 2 ^ (K - 1 - ex)) by (apply digits2_pos_le; lia).
  assert (Hmy : Zpos my < 2 ^ (K - 1 - ey)) by (apply digits2_pos_le; lia).
  destruct (shl_align_bound mx ex ez (K - 1) Hmx) as [Hax Hex].
  destruct (shl_align_bound my ey ez (K - 1) Hmy) as [Hay Hey].
  rewrite Hex in Hax by (unfold ez; lia).
  rewrite Hey in Hay by (unfold ez; lia).
  assert (Hpow : 2 ^ (K - ez) = 2 * 2 ^ (K - 1 - ez)).
  { replace (K - ez) with (Z.succ (K - 1 - ez)) by lia.
    apply Z.pow_succ_r.
    apply (pow2_bound_nonneg (Zpos (fst (shl_align mx ex ez)))). lia. }
  rewrite Hpow. unfold ax, ay, cond_Zopp.
  destruct sx, sy; lia.
Qed.

Lemma SFadd_bounded (x y : spec_float) (K : Z) :
  emin prec emax ≤ K → K + 1 ≤ emax - prec →
  bounded_by (K - 1) x → bounded_by (K - 1) y →
  bounded_by (K + 1) (SFadd prec emax x y).
Proof.
  intros Hmin Hmax Hx Hy.
  destruct x as [sx|sx| |sx mx ex], y as [sy|sy| |sy my ey];
    cbn [bounded_by] in Hx, Hy; try contradiction; cbn [SFadd].
  - destruct sx, sy; exact I.
  - cbn [bounded_by]. lia.
  - cbn [bounded_by]. lia.
  - apply binary_normalize_bounded; try assumption.
    apply (aligned_sum_bound sx sy mx my ex ey K); lia.
Qed.

Lemma SFsub_bounded (x y : spec_float) (K : Z) :
  emin prec emax ≤ K → K + 1 ≤ emax - prec →
  bounded_by (K - 1) x → bounded_by (K - 1) y →
  bounded_by (K + 1) (SFsub prec emax x y).
Proof.
  intros Hmin Hmax Hx Hy.
  destruct x as [sx|sx| |sx mx ex], y as [sy|sy| |sy my ey];
    cbn [bounded_by] in Hx, Hy; try contradiction; cbn [SFsub].
  - destruct sx, sy; exact I.
  - cbn [bounded_by]. lia.
  - cbn [bounded_by]. lia.
  - apply binary_normalize_bounded; try assumption.
    apply (aligned_sum_bound sx sy mx my ex ey K); lia.
Qed.

Lemma SFmul_bounded (x y : spec_float) (Kx Ky : Z) :
  emin prec emax ≤ Kx + Ky → Kx + Ky + 1 ≤ emax - prec →
  bounded_by Kx x → bounded_by Ky y →
  bounded_by (Kx + Ky + 1) (SFmul prec emax x y).
Proof.
  intros Hmin Hmax Hx Hy.
  destruct x as [sx|sx| |sx mx ex], y as [sy|sy| |sy my ey];
    cbn [bounded_by] in Hx, Hy; try contradiction; cbn [SFmul];
    try exact I.
  apply binary_round_aux_bounded; try assumption.
  split; [lia|].
  assert (Hmx : Zpos mx < 2 ^ (Kx - ex)) by (apply digits2_pos_le; lia).
  assert (Hmy : Zpos my < 2 ^ (Ky - ey)) by (apply digits2_pos_le; lia).
  replace (Kx + Ky - (ex + ey)) with ((Kx - ex) + (Ky - ey)) by lia.
  rewrite Z.pow_add_r by lia.
  rewrite Pos2Z.inj_mul.
  apply Z.mul_lt_mono_nonneg; lia.
Qed.
End Rounding.

(** ** Exact results

    An operation whose mathematical result is representable returns it:
    rounding then only moves zeros in or out of the mantissa. *)

Section Exact.

Lemma pow2_pos (k : Z) : 0 ≤ k → 0 < 2 ^ k.
Proof. intros. apply Z.pow_pos_nonneg; lia. Qed.

Lemma pow2_split (a b : Z) : 0 ≤ a → 0 ≤ b → 2 ^ (a + b) = 2 ^ a * 2 ^ b.
Proof. intros. apply Z.pow_add_r; lia. Qed.

(** The number of digits is determined by the two powers of two around. *)
Lemma digits2_pos_unique (p : positive) (k : Z) :
  2 ^ (k - 1) ≤ Zpos p < 2 ^ k → Zpos (digits2_pos p) = k.
Proof.
  intros [Hlo Hhi].
  apply digits2_pos_le in Hhi.
  destruct (Z_lt_le_dec (Zpos (digits2_pos p)) k) as [Hlt|]; [|lia].
  exfalso.
  assert (H : Zpos p < 2 ^ (k - 1)) by (apply digits2_pos_le; lia).
  lia.
Qed.

Lemma digits2_pos_shift (p q : positive) (k : Z) :
  0 ≤ k → Zpos q = Zpos p * 2 ^ k →
  Zpos (digits2_pos q) = Zpos (digits2_pos p) + k.
Proof.
  intros Hk Hq. apply digits2_pos_unique.
  pose proof (digits2_pos_bounds p) as [Hlo Hhi].
  pose proof (pow2_pos k Hk).
  rewrite Hq.
  replace (Zpos (digits2_pos p) + k - 1) with (Zpos (digits2_pos p) - 1 + k) by lia.
  rewrite !pow2_split by lia. nia.
Qed.

Lemma same_value_base (M E v e L : Z) :
  L ≤ E → L ≤ e →
  same_value M E v e ↔ M * 2 ^ (E - L) = v * 2 ^ (e - L).
Proof.
  intros HE He. unfold same_value.
  set (m := Z.min E e).
  replace (E - L) with ((E - m) + (m - L)) by lia.
  replace (e - L) with ((e - m) + (m - L)) by lia.
  rewrite !pow2_split by lia.
  pose proof (pow2_pos (m - L) ltac:(lia)).
  split; intros Heq; nia.
Qed.

Lemma shr_1_even (c : Z) :
  0 ≤ c →
  shr_1 (Build_shr_record (c * 2) false false) = Build_shr_record c false false.
Proof.
  intros Hc. destruct c as [|q|q]; [reflexivity | | lia].
  replace (Zpos q * 2) with (Zpos q~0) by lia. reflexivity.
Qed.

(** Shifting out zeros only leaves the round and sticky bits clear. *)
Lemma iter_shr_1_exact (p : positive) (c : Z) :
  0 ≤ c →
  SpecFloat.iter_pos shr_1 p (Build_shr_record (c * 2 ^ Zpos p) false false)
  = Build_shr_record c false false.
Proof.
  revert c. induction p as [p IH | p IH |]; intros c Hc;
    cbn [SpecFloat.iter_pos].
  - replace (c * 2 ^ Zpos p~1) with (c * 2 ^ Zpos p * 2 ^ Zpos p * 2).
    2:{ replace (Zpos p~1) with (Zpos p + Zpos p + 1) by lia.
        rewrite !pow2_split by lia. change (2 ^ 1) with 2. lia. }
    pose proof (pow2_pos (Zpos p) ltac:(lia)).
    rewrite shr_1_even by nia.
    rewrite IH by nia. apply IH. exact Hc.
  - replace (c * 2 ^ Zpos p~0) with (c * 2 ^ Zpos p * 2 ^ Zpos p).
    2:{ replace (Zpos p~0) with (Zpos p + Zpos p) by lia.
        rewrite !pow2_split by lia. lia. }
    pose proof (pow2_pos (Zpos p) ltac:(lia)).
    rewrite IH by nia. apply IH. exact Hc.
  - change (2 ^ 1) with 2. apply shr_1_even. exact Hc.
Qed.

Variables prec emax : Z.

(** A mantissa that is [c], followed by the [n] zeros that rounding has to
    drop, rounds to [c] itself. *)
Lemma binary_round_aux_exact (s : bool) (M : Z) (c : positive) (n E f : Z) :
  0 ≤ n → M = Zpos c * 2 ^ n → f = E + n →
  fexp prec emax (Zdigits2 M + E) = f →
  f ≤ emax - prec →
  binary_round_aux prec emax s M E loc_Exact = S754_finite s c f.
Proof.
  intros Hn HM -> Hfexp Hmax.
  assert (Hd : Zdigits2 M = Zpos (digits2_pos c) + n).
  { pose proof (pow2_pos n Hn).
    destruct M as [|q|q]; try nia.
    cbn [Zdigits2]. apply digits2_pos_shift; assumption. }
  unfold binary_round_aux.
  assert (Hshr : shr_fexp prec emax M E loc_Exact
                 = (Build_shr_record (Zpos c) false false, E + n)).
  { unfold shr_fexp. rewrite Hfexp.
    replace (E + n - E) with n by lia.
    cbn [shr_record_of_loc]. unfold shr.
    destruct n as [|p|p]; [|  | lia].
    - rewrite HM. f_equal; [f_equal|]; lia.
    - rewrite HM, iter_shr_1_exact by lia. reflexivity. }
  rewrite Hshr. cbn [shr_m loc_of_shr_record round_nearest_even].
  assert (Hshr2 : shr_fexp prec emax (Zpos c) (E + n) loc_Exact
                  = (Build_shr_record (Zpos c) false false, E + n)).
  { unfold shr_fexp. cbn [Zdigits2].
    replace (Zpos (digits2_pos c) + (E + n)) with (Zdigits2 M + E) by lia.
    rewrite Hfexp, Z.sub_diag. reflexivity. }
  rewrite Hshr2. cbn [shr_m].
  destruct (Z.leb_spec (E + n) (emax - prec)); [reflexivity | lia].
Qed.

(** Two mantissas that stand for the same number differ by a shift, and
    so do their numbers of digits. *)
Lemma same_value_digits (P w : positive) (E e : Z) :
  same_value (Zpos P) E (Zpos w) e →
  Zpos (digits2_pos P) + E = Zpos (digits2_pos w) + e.
Proof.
  unfold same_value. set (L := Z.min E e). intros Heq.
  pose proof (pow2_pos (E - L) ltac:(lia)).
  assert (Hq : ∃ q : positive, Zpos q = Zpos P * 2 ^ (E - L)).
  { exists (Z.to_pos (Zpos P * 2 ^ (E - L))). rewrite Z2Pos.id; nia. }
  destruct Hq as [q Hq].
  pose proof (digits2_pos_shift P q (E - L) ltac:(lia) Hq).
  pose proof (digits2_pos_shift w q (e - L) ltac:(lia) ltac:(lia)).
  lia.
Qed.

(** A number [w * 2 ^ e] with [w] of at most [prec] digits is
    representable, and rounding any mantissa and exponent that stand for
    it returns its canonical representation. *)
Lemma binary_round_exact (s : bool) (P w : positive) (E e : Z) :
  same_value (Zpos P) E (Zpos w) e →
  Zpos (digits2_pos w) ≤ prec →
  emin prec emax ≤ e ≤ emax - prec →
  let f := fexp prec emax (Zpos (digits2_pos w) + e) in
  f ≤ e
  ∧ binary_round prec emax s P E
    = S754_finite s (Z.to_pos (Zpos w * 2 ^ (e - f))) f.
Proof.
  intros Hsame Hw He f.
  pose proof (same_value_digits P w E e Hsame) as Hd.
  assert (Hf : f ≤ e) by (unfold f, fexp; lia).
  assert (Hfmin : emin prec emax ≤ f) by (unfold f, fexp; lia).
  split; [exact Hf|].
  pose proof (pow2_pos (e - f) ltac:(lia)) as Hpow.
  assert (Hc : Zpos (Z.to_pos (Zpos w * 2 ^ (e - f))) = Zpos w * 2 ^ (e - f))
    by (rewrite Z2Pos.id; nia).
  unfold binary_round. rewrite Hd. fold f.
  unfold shl_align.
  destruct (f - E) as [|k|k] eqn:Hk.
  - (* the exponent is already canonical *)
    apply (binary_round_aux_exact s _ _ 0); try lia.
    + rewrite Z.pow_0_r, Z.mul_1_r, Hc.
      apply (same_value_base _ _ _ _ f) in Hsame; try lia.
      replace (E - f) with 0 in Hsame by lia.
      rewrite Z.pow_0_r, Z.mul_1_r in Hsame. exact Hsame.
    + cbn [Zdigits2]. rewrite Hd. reflexivity.
  - (* zeros have to be dropped *)
    apply (binary_round_aux_exact s _ _ (Zpos k)); try lia.
    + rewrite Hc.
      apply (same_value_base _ _ _ _ E) in Hsame; try lia.
      rewrite Z.sub_diag, Z.pow_0_r, Z.mul_1_r in Hsame.
      rewrite Hsame, <- Z.mul_assoc, <- pow2_split by lia.
      f_equal. f_equal. lia.
    + cbn [Zdigits2]. rewrite Hd. reflexivity.
  - (* zeros have to be added *)
    cbn [fst snd].
    apply (binary_round_aux_exact s _ _ 0); try lia.
    + rewrite Z.pow_0_r, Z.mul_1_r, Hc, pos_iter_xO.
      apply (same_value_base _ _ _ _ f) in Hsame; try lia.
      replace (Zpos k) with (E - f) by lia. exact Hsame.
    + cbn [Zdigits2].
      rewrite (digits2_pos_shift P _ (Zpos k) ltac:(lia) (pos_iter_xO P k)).
      replace (Zpos (digits2_pos P) + Zpos k + f)
        with (Zpos (digits2_pos P) + E) by lia.
      rewrite Hd. reflexivity.
Qed.


Lemma scaled_finite (s : bool) (m : positive) (f : Z) (w e : Z) :
  f ≤ e → Zpos m = w * 2 ^ (e - f) →
  scaled e (S754_finite s m f) = Some (cond_Zopp s w).
Proof.
  intros Hf Hm. unfold scaled.
  pose proof (pow2_pos (e - f) ltac:(lia)) as Hpow.
  destruct (decide (e ≤ f)) as [Hle|Hgt].
  - replace (f - e) with 0 by lia. replace (e - f) with 0 in Hm by lia.
    rewrite Z.pow_0_r, Z.mul_1_r in *. rewrite Hm. reflexivity.
  - rewrite Hm, Z.mod_mul, Z.div_mul by lia.
    rewrite decide_True by reflexivity. reflexivity.
Qed.

Lemma scaled_same_value (s : bool) (m : positive) (ex : Z) (v e : Z) :
  scaled e (S754_finite s m ex) = Some v →
  same_value (cond_Zopp s (Zpos m)) ex v e.
Proof.
  unfold scaled. intros H.
  destruct (decide (e ≤ ex)) as [Hle|Hgt].
  - injection H as <-.
    apply (same_value_base _ _ _ _ e); [lia.. |].
    rewrite Z.sub_diag, Z.pow_0_r. destruct s; cbn [cond_Zopp]; lia.
  - destruct (decide (Zpos m mod 2 ^ (e - ex) = 0)) as [Hmod|]; [|discriminate].
    injection H as <-.
    apply (same_value_base _ _ _ _ ex); [lia.. |].
    rewrite Z.sub_diag, Z.pow_0_r.
    pose proof (pow2_pos (e - ex) ltac:(lia)).
    pose proof (Z.div_mod (Zpos m) (2 ^ (e - ex)) ltac:(lia)).
    destruct s; cbn [cond_Zopp]; lia.
Qed.

Lemma same_value_sign (M E v e : Z) :
  same_value M E v e → (0 < M ↔ 0 < v) ∧ (M = 0 ↔ v = 0).
Proof.
  unfold same_value. set (L := Z.min E e). intros Heq.
  pose proof (pow2_pos (E - L) ltac:(lia)).
  pose proof (pow2_pos (e - L) ltac:(lia)).
  split; split; intros; nia.
Qed.

Lemma same_value_opp (M E v e : Z) :
  same_value M E v e → same_value (- M) E (- v) e.
Proof. unfold same_value. lia. Qed.

(** Rounding a number that is representable returns that number. *)
Lemma binary_normalize_scaled (M E v e : Z) (szero : bool) :
  same_value M E v e →
  Z.abs v < 2 ^ prec →
  emin prec emax ≤ e ≤ emax - prec →
  scaled e (binary_normalize prec emax M E szero) = Some v.
Proof.
  intros Hsame Hv He.
  pose proof (same_value_sign M E v e Hsame) as [Hpos Hzero].
  unfold binary_normalize.
  destruct M as [|P|P].
  - replace v with 0 by (symmetry; apply Hzero; reflexivity). reflexivity.
  - destruct v as [|w|w]; try lia.
    destruct (binary_round_exact false P w E e Hsame) as [Hf Hround];
      [apply digits2_pos_le; lia | exact He |].
    rewrite Hround.
    set (f := fexp prec emax (Zpos (digits2_pos w) + e)) in *.
    pose proof (pow2_pos (e - f) ltac:(lia)).
    apply (scaled_finite false _ _ (Zpos w)); [exact Hf|].
    rewrite Z2Pos.id by nia. reflexivity.
  - apply same_value_opp in Hsame. cbn [Z.opp] in Hsame.
    destruct v as [|w|w]; try lia. cbn [Z.opp] in Hsame.
    destruct (binary_round_exact true P w E e Hsame) as [Hf Hround];
      [apply digits2_pos_le; lia | exact He |].
    rewrite Hround.
    set (f := fexp prec emax (Zpos (digits2_pos w) + e)) in *.
    pose proof (pow2_pos (e - f) ltac:(lia)).
    apply (scaled_finite true _ _ (Zpos w)); [exact Hf|].
    rewrite Z2Pos.id by nia. reflexivity.
Qed.

Lemma shl_align_exact (mx : positive) (ex ez : Z) :
  ez ≤ ex → Zpos (fst (shl_align mx ex ez)) = Zpos mx * 2 ^ (ex - ez).
Proof.
  intros Hle. unfold shl_align.
  destruct (ez - ex) as [|k|k] eqn:Hk; cbn [fst]; try lia.
  - replace (ex - ez) with 0 by lia. lia.
  - rewrite pos_iter_xO. f_equal. f_equal. lia.
Qed.

(** The aligned mantissas of an addition stand for the two operands. *)
Lemma aligned_same_value (s : bool) (m : positive) (ex ez a e : Z) :
  ez ≤ ex →
  scaled e (S754_finite s m ex) = Some a →
  ∀ L, L ≤ ez → L ≤ e →
    cond_Zopp s (Zpos (fst (shl_align m ex ez))) * 2 ^ (ez - L)
    = a * 2 ^ (e - L).
Proof.
  intros Hle Hx L HL1 HL2.
  apply scaled_same_value in Hx.
  apply (same_value_base _ _ _ _ L) in Hx; [|lia..].
  rewrite <- Hx, shl_align_exact by exact Hle.
  replace (ex - L) with ((ex - ez) + (ez - L)) by lia.
  rewrite pow2_split by lia. destruct s; cbn [cond_Zopp]; lia.
Qed.

Lemma scaled_opp (e : Z) (x : spec_float) (a : Z) :
  scaled e x = Some a → scaled e (SFopp x) = Some (- a).
Proof.
  destruct x as [s|s| |s m ex]; cbn [scaled SFopp]; try congruence.
  - intros [= <-]. reflexivity.
  - destruct (decide (e ≤ ex)).
    + intros [= <-]. destruct s; cbn [negb cond_Zopp]; f_equal; lia.
    + destruct (decide (Zpos m mod 2 ^ (e - ex) = 0)); [|discriminate].
      intros [= <-]. destruct s; cbn [negb cond_Zopp]; f_equal; lia.
Qed.

Lemma scaled_zero_or_finite (e : Z) (x : spec_float) (a : Z) :
  scaled e x = Some a →
  match x with
  | S754_zero _ => a = 0
  | S754_finite _ _ _ => True
  | _ => False
  end.
Proof.
  destruct x; cbn [scaled]; intros H; first [exact I | congruence].
Qed.

(** Additions and subtractions whose result is representable are exact. *)
Lemma SFadd_scaled (x y : spec_float) (a b e : Z) :
  scaled e x = Some a → scaled e y = Some b →
  Z.abs (a + b) < 2 ^ prec →
  emin prec emax ≤ e ≤ emax - prec →
  scaled e (SFadd prec emax x y) = Some (a + b).
Proof.
  intros Hx Hy Hab He.
  pose proof (scaled_zero_or_finite e x a Hx) as Hx0.
  pose proof (scaled_zero_or_finite e y b Hy) as Hy0.
  destruct x as [sx|sx| |sx mx ex], y as [sy|sy| |sy my ey];
    try contradiction; cbn [SFadd]; subst.
  - destruct sx, sy; reflexivity.
  - exact Hy.
  - rewrite Z.add_0_r. exact Hx.
  - apply binary_normalize_scaled; try assumption.
    set (ez := Z.min ex ey).
    apply (same_value_base _ _ _ _ (Z.min ez e)); [lia.. |].
    rewrite !Z.mul_add_distr_r.
    rewrite (aligned_same_value sx mx ex ez a e) by (unfold ez; lia || exact Hx).
    rewrite (aligned_same_value sy my ey ez b e) by (unfold ez; lia || exact Hy).
    reflexivity.
Qed.

Lemma SFsub_scaled (x y : spec_float) (a b e : Z) :
  scaled e x = Some a → scaled e y = Some b →
  Z.abs (a - b) < 2 ^ prec →
  emin prec emax ≤ e ≤ emax - prec →
  scaled e (SFsub prec emax x y) = Some (a - b).
Proof.
  intros Hx Hy Hab He.
  pose proof (scaled_zero_or_finite e x a Hx) as Hx0.
  pose proof (scaled_zero_or_finite e y b Hy) as Hy0.
  destruct x as [sx|sx| |sx mx ex], y as [sy|sy| |sy my ey];
    try contradiction; cbn [SFsub]; subst.
  - destruct sx, sy; reflexivity.
  - rewrite Z.sub_0_l. exact (scaled_opp e _ b Hy).
  - rewrite Z.sub_0_r. exact Hx.
  - apply binary_normalize_scaled; try assumption.
    set (ez := Z.min ex ey).
    apply (same_value_base _ _ _ _ (Z.min ez e)); [lia.. |].
    rewrite !Z.mul_sub_distr_r.
    rewrite (aligned_same_value sx mx ex ez a e) by (unfold ez; lia || exact Hx).
    rewrite (aligned_same_value sy my ey ez b e) by (unfold ez; lia || exact Hy).
    reflexivity.
Qed.


Lemma same_value_refl (v e : Z) : same_value v e v e.
Proof. reflexivity. Qed.

(** The result of rounding a representable number depends on the number,
    not on the mantissa and exponent it is given by. *)
Lemma binary_normalize_same_value (M E v e : Z) (szero : bool) :
  same_value M E v e →
  Z.abs v < 2 ^ prec →
  emin prec emax ≤ e ≤ emax - prec →
  binary_normalize prec emax M E szero = binary_normalize prec emax v e szero.
Proof.
  intros Hsame Hv He.
  pose proof (same_value_sign M E v e Hsame) as [Hpos Hzero].
  unfold binary_normalize.
  destruct M as [|P|P].
  - replace v with 0 by (symmetry; apply Hzero; reflexivity). reflexivity.
  - destruct v as [|w|w]; try lia.
    assert (Hw : Zpos (digits2_pos w) ≤ prec) by (apply digits2_pos_le; lia).
    destruct (binary_round_exact false P w E e Hsame Hw He) as [_ ->].
    destruct (binary_round_exact false w w e e (same_value_refl _ _) Hw He)
      as [_ ->].
    reflexivity.
  - apply same_value_opp in Hsame. cbn [Z.opp] in Hsame.
    destruct v as [|w|w]; try lia. cbn [Z.opp] in Hsame.
    assert (Hw : Zpos (digits2_pos w) ≤ prec) by (apply digits2_pos_le; lia).
    destruct (binary_round_exact true P w E e Hsame Hw He) as [_ ->].
    destruct (binary_round_exact true w w e e (same_value_refl _ _) Hw He)
      as [_ ->].
    reflexivity.
Qed.

Lemma binary_normalize_finite (v e : Z) :
  v ≠ 0 → Z.abs v < 2 ^ prec →
  emin prec emax ≤ e ≤ emax - prec →
  ∃ s m f, binary_normalize prec emax v e false = S754_finite s m f.
Proof.
  intros Hv0 Hv He. unfold binary_normalize.
  destruct v as [|w|w]; [lia | |].
  - destruct (binary_round_exact false w w e e (same_value_refl _ _)) as [_ ->];
      [apply digits2_pos_le; lia | exact He | eauto].
  - destruct (binary_round_exact true w w e e (same_value_refl _ _)) as [_ ->];
      [apply digits2_pos_le; lia | exact He | eauto].
Qed.

(** Adding two representable numbers whose sum is representable gives
    the sum. *)
Lemma SFadd_normalize (a b e : Z) :
  Z.abs a < 2 ^ prec → Z.abs b < 2 ^ prec → Z.abs (a + b) < 2 ^ prec →
  emin prec emax ≤ e ≤ emax - prec →
  SFadd prec emax (binary_normalize prec emax a e false)
                  (binary_normalize prec emax b e false)
  = binary_normalize prec emax (a + b) e false.
Proof.
  intros Ha Hb Hab He.
  destruct (Z.eq_dec a 0) as [-> | Ha0]; destruct (Z.eq_dec b 0) as [-> | Hb0].
  - reflexivity.
  - rewrite Z.add_0_l.
    destruct (binary_normalize_finite b e Hb0 Hb He) as (s & m & f & ->).
    reflexivity.
  - rewrite Z.add_0_r.
    destruct (binary_normalize_finite a e Ha0 Ha He) as (s & m & f & ->).
    reflexivity.
  - pose proof (binary_normalize_scaled a e a e false
                  (same_value_refl _ _) Ha He) as Hsa.
    pose proof (binary_normalize_scaled b e b e false
                  (same_value_refl _ _) Hb He) as Hsb.
    destruct (binary_normalize_finite a e Ha0 Ha He) as (sx & mx & ex & Hx).
    destruct (binary_normalize_finite b e Hb0 Hb He) as (sy & my & ey & Hy).
    rewrite Hx in *. rewrite Hy in *. cbn [SFadd].
    apply binary_normalize_same_value; try assumption.
    set (ez := Z.min ex ey).
    apply (same_value_base _ _ _ _ (Z.min ez e)); [lia.. |].
    rewrite !Z.mul_add_distr_r.
    rewrite (aligned_same_value sx mx ex ez a e) by (unfold ez; lia || exact Hsa).
    rewrite (aligned_same_value sy my ey ez b e) by (unfold ez; lia || exact Hsb).
    reflexivity.
Qed.

End Exact.

(** The bounds at the two formats in use. *)
Module NumberFacts.

Lemma of_int_bounded (z K : Z) :
  0 ≤ K ≤ 970 → Z.abs z < 2 ^ K → bounded_by (K + 1) (Number.of_int z).
Proof.
  intros HK Hz. unfold Number.of_int.
  apply binary_normalize_bounded;
    unfold emin, Number.prec, Number.emax; try lia.
  rewrite Z.sub_0_r. exact Hz.
Qed.

Lemma of_uint8_bounded (b : Z) : is_uint8 b → bounded_by 9 (Number.of_int b).
Proof.
  intros Hb. apply (of_int_bounded b 8); [lia|].
  unfold is_uint8 in Hb. change (2 ^ 8) with 256. lia.
Qed.

Lemma add_bounded (x y : spec_float) (K : Z) :
  -1074 ≤ K ≤ 970 →
  bounded_by (K - 1) x → bounded_by (K - 1) y →
  bounded_by (K + 1) (Number.add x y).
Proof.
  intros HK. apply SFadd_bounded;
    unfold emin, Number.prec, Number.emax; lia.
Qed.

Lemma sub_bounded (x y : spec_float) (K : Z) :
  -1074 ≤ K ≤ 970 →
  bounded_by (K - 1) x → bounded_by (K - 1) y →
  bounded_by (K + 1) (Number.sub x y).
Proof.
  intros HK. apply SFsub_bounded;
    unfold emin, Number.prec, Number.emax; lia.
Qed.

Lemma mul_bounded (x y : spec_float) (Kx Ky : Z) :
  -1074 ≤ Kx + Ky ≤ 970 →
  bounded_by Kx x → bounded_by Ky y →
  bounded_by (Kx + Ky + 1) (Number.mul x y).
Proof.
  intros HK. apply SFmul_bounded;
    unfold emin, Number.prec, Number.emax; lia.
Qed.

Lemma fround_bounded (x : spec_float) (K : Z) :
  -149 ≤ K ≤ 103 → bounded_by K x → bounded_by (K + 1) (Float32.fround x).
Proof.
  intros HK Hx. destruct x as [s|s| |s m e]; cbn [bounded_by] in Hx;
    try contradiction; cbn [Float32.fround]; [exact I|].
  apply binary_normalize_bounded;
    unfold emin, Float32.prec, Float32.emax; try lia.
  replace (Z.abs (cond_Zopp s (Zpos m))) with (Zpos m)
    by (destruct s; reflexivity).
  apply digits2_pos_le. lia.
Qed.

Lemma bounded_is_finite (K : Z) (x : spec_float) :
  bounded_by K x → Number.is_finite x = true.
Proof. destruct x; cbn; intros H; (reflexivity || contradiction). Qed.

(** The literals of the two formulas. *)
Lemma lit_256_bounded : bounded_by 9 (Number.of_int 256).
Proof. vm_compute. discriminate. Qed.

Lemma lit_10000_bounded : bounded_by 14 (Number.of_int 10000).
Proof. vm_compute. discriminate. Qed.

Lemma lit_32768_bounded : bounded_by 16 (Number.of_int 32768).
Proof. vm_compute. discriminate. Qed.

Lemma one_tenth_bounded : bounded_by (-3) Number.one_tenth.
Proof. vm_compute. discriminate. Qed.

(** [0.1] is the quotient of 1 by 10, correctly rounded. *)
Lemma one_tenth_correct :
  Number.div (Number.of_int 1) (Number.of_int 10) = Number.one_tenth.
Proof. vm_compute. reflexivity. Qed.

(** Integers add exactly. *)
Lemma of_int_add (a b : Z) :
  Z.abs a < 2 ^ 53 → Z.abs b < 2 ^ 53 → Z.abs (a + b) < 2 ^ 53 →
  Number.add (Number.of_int a) (Number.of_int b) = Number.of_int (a + b).
Proof.
  intros Ha Hb Hab. unfold Number.add, Number.of_int.
  apply SFadd_normalize; unfold emin, Number.prec, Number.emax; lia.
Qed.

Lemma of_int_scaled (z e : Z) :
  -1074 ≤ e ≤ 0 → Z.abs (z * 2 ^ (- e)) < 2 ^ 53 →
  scaled e (Number.of_int z) = Some (z * 2 ^ (- e)).
Proof.
  intros He Hz. unfold Number.of_int.
  apply binary_normalize_scaled;
    unfold emin, Number.prec, Number.emax; try lia.
  apply (same_value_base _ _ _ _ e); [lia.. |].
  rewrite Z.sub_diag, Z.pow_0_r, Z.mul_1_r, Z.sub_0_l. reflexivity.
Qed.

(** A number with at most 24 significant bits is stored unchanged. *)
Lemma fround_scaled (x : spec_float) (v e : Z) :
  scaled e x = Some v → Z.abs v < 2 ^ 24 → -149 ≤ e ≤ 104 →
  scaled e (Float32.fround x) = Some v.
Proof.
  intros Hx Hv He.
  destruct x as [s|s| |s m ex]; try discriminate; [exact Hx|].
  cbn [Float32.fround].
  apply binary_normalize_scaled;
    unfold emin, Float32.prec, Float32.emax; try lia.
  apply scaled_same_value. exact Hx.
Qed.

End NumberFacts.

(** ** Facts checked on every byte *)

Lemma all_uint8_spec (P : Z → bool) :
  all_uint8 P = true → ∀ b, is_uint8 b → P b = true.
Proof.
  unfold all_uint8, is_uint8. intros Hall b Hb.
  rewrite forallb_forall in Hall. apply Hall.
  rewrite <- (Z2Nat.id b) by lia.
  apply in_map, in_seq. lia.
Qed.

(** Dividing a byte by 256 is exact. *)
Lemma div_256_exact (b : Z) :
  is_uint8 b →
  Number.div (Number.of_int b) (Number.of_int 256)
  = binary_normalize Number.prec Number.emax b (-8) false.
Proof.
  intros Hb.
  apply (bool_decide_eq_true_1 (_ = _)).
  revert b Hb. apply all_uint8_spec. vm_compute. reflexivity.
Qed.

(** Multiplying a byte by 256, once or twice, is exact. *)
Lemma mul_256_exact (r : Z) :
  is_uint8 r →
  Number.mul (Number.of_int r) (Number.of_int 256) = Number.of_int (r * 256).
Proof.
  intros Hr.
  apply (bool_decide_eq_true_1 (_ = _)).
  revert r Hr. apply all_uint8_spec. vm_compute. reflexivity.
Qed.

Lemma mul_256_256_exact (r : Z) :
  is_uint8 r →
  Number.mul (Number.mul (Number.of_int r) (Number.of_int 256)) (Number.of_int 256)
  = Number.of_int (r * 65536).
Proof.
  intros Hr.
  apply (bool_decide_eq_true_1 (_ = _)).
  revert r Hr. apply all_uint8_spec. vm_compute. reflexivity.
Qed.

(** ** The two decoders on bytes *)

(** The integer part of the mapbox formula is computed without rounding. *)
Lemma decoder_mapbox_spec (r g b : Z) :
  is_uint8 r → is_uint8 g → is_uint8 b →
  decoder_mapbox (Some r) (Some g) (Some b) = mapbox_elevation r g b.
Proof.
  intros Hr Hg Hb. unfold decoder_mapbox, mapbox_elevation.
  cbn [Number.ToNumber].
  rewrite mul_256_256_exact by exact Hr.
  rewrite mul_256_exact by exact Hg.
  unfold is_uint8 in *.
  assert (H53 : 2 ^ 53 = 9007199254740992) by reflexivity.
  rewrite !NumberFacts.of_int_add by lia.
  reflexivity.
Qed.

Lemma decoder_terrarium_spec (r g b : Z) :
  decoder_terrarium (Some r) (Some g) (Some b) = terrarium_elevation r g b.
Proof. reflexivity. Qed.

(** On bytes, every operation of the terrarium formula is exact, and so
    is the conversion to binary32: 256 times the result is the integer
    [65536 R + 256 G + B - 8388608]. *)
Lemma terrarium_elevation_exact (R G B : Z) :
  is_uint8 R → is_uint8 G → is_uint8 B →
  scaled (-8) (Float32.fround (terrarium_elevation R G B))
  = Some (65536 * R + 256 * G + B - 8388608).
Proof.
  unfold is_uint8. intros HR HG HB.
  assert (Hint : ∀ z, Z.abs z < 2 ^ 45 →
            scaled (-8) (Number.of_int z) = Some (z * 256)).
  { intros z Hz. apply (NumberFacts.of_int_scaled z (-8)); [lia|].
    change (2 ^ (- (-8))) with 256. change (2 ^ 53) with (2 ^ 45 * 256). lia. }
  assert (Hrange : emin Number.prec Number.emax ≤ -8
                   ≤ Number.emax - Number.prec)
    by (unfold emin, Number.prec, Number.emax; lia).
  assert (H45 : 2 ^ 45 = 35184372088832) by reflexivity.
  assert (H53 : 2 ^ Number.prec = 9007199254740992) by reflexivity.
  assert (H1 : scaled (-8)
                 (Number.add (Number.mul (Number.of_int R) (Number.of_int 256))
                             (Number.of_int G))
               = Some (R * 256 * 256 + G * 256)).
  { rewrite mul_256_exact by exact HR.
    apply SFadd_scaled; try apply Hint; lia. }
  assert (H2 : scaled (-8) (Number.div (Number.of_int B) (Number.of_int 256))
               = Some B).
  { rewrite div_256_exact by exact HB.
    apply binary_normalize_scaled; try lia.
    reflexivity. }
  apply NumberFacts.fround_scaled;
    [|change (2 ^ 24) with 16777216; lia | lia].
  unfold terrarium_elevation.
  replace (65536 * R + 256 * G + B - 8388608)
    with (R * 256 * 256 + G * 256 + B - 32768 * 256) by lia.
  apply SFsub_scaled; [|apply Hint; lia|lia|exact Hrange].
  apply SFadd_scaled; [exact H1|exact H2|lia|exact Hrange].
Qed.

Lemma decoder_mapbox_bounded (r g b : Z) :
  is_uint8 r → is_uint8 g → is_uint8 b →
  bounded_by 33 (decoder_mapbox (Some r) (Some g) (Some b)).
Proof.
  intros Hr Hg Hb. unfold decoder_mapbox. cbn [Number.ToNumber].
  pose proof (NumberFacts.of_uint8_bounded r Hr) as HR.
  pose proof (NumberFacts.of_uint8_bounded g Hg) as HG.
  pose proof (NumberFacts.of_uint8_bounded b Hb) as HB.
  pose proof NumberFacts.lit_256_bounded as H256.
  pose proof (NumberFacts.mul_bounded _ _ 9 9 ltac:(lia) HR H256) as HR1.
  pose proof (NumberFacts.mul_bounded _ _ (9 + 9 + 1) 9 ltac:(lia) HR1 H256) as HR2.
  pose proof (NumberFacts.mul_bounded _ _ 9 9 ltac:(lia) HG H256) as HG1.
  assert (HS1 : bounded_by 31 (Number.add
            (Number.mul (Number.mul (Number.of_int r) (Number.of_int 256))
                        (Number.of_int 256))
            (Number.mul (Number.of_int g) (Number.of_int 256)))).
  { apply (NumberFacts.add_bounded _ _ 30); [lia| |];
      eapply bounded_by_mono; eauto; lia. }
  assert (HS2 : bounded_by 33 (Number.add
            (Number.add
               (Number.mul (Number.mul (Number.of_int r) (Number.of_int 256))
                           (Number.of_int 256))
               (Number.mul (Number.of_int g) (Number.of_int 256)))
            (Number.of_int b))).
  { apply (NumberFacts.add_bounded _ _ 32); [lia| |];
      eapply bounded_by_mono; eauto; lia. }
  pose proof (NumberFacts.mul_bounded _ _ 33 (-3) ltac:(lia) HS2
                NumberFacts.one_tenth_bounded) as HP.
  apply (NumberFacts.add_bounded _ _ 32); [lia| |].
  - apply bounded_by_opp.
    eapply bounded_by_mono; [apply NumberFacts.lit_10000_bounded | lia].
  - eapply bounded_by_mono; [exact HP | lia].
Qed.

Lemma decoder_terrarium_bounded (r g b : Z) :
  is_uint8 r → is_uint8 g → is_uint8 b →
  bounded_by 25 (decoder_terrarium (Some r) (Some g) (Some b)).
Proof.
  intros Hr Hg Hb. unfold decoder_terrarium. cbn [Number.ToNumber].
  pose proof (NumberFacts.of_uint8_bounded r Hr) as HR.
  pose proof (NumberFacts.of_uint8_bounded g Hg) as HG.
  pose proof NumberFacts.lit_256_bounded as H256.
  pose proof (NumberFacts.mul_bounded _ _ 9 9 ltac:(lia) HR H256) as HR1.
  assert (HD : bounded_by 1 (Number.div (Number.of_int b) (Number.of_int 256))).
  { rewrite div_256_exact by exact Hb.
    apply (binary_normalize_bounded Number.prec Number.emax
             ltac:(unfold Number.prec; lia) b (-8) false 0);
      unfold emin, Number.prec, Number.emax; try lia.
    unfold is_uint8 in Hb. change (2 ^ (0 - -8)) with 256. lia. }
  assert (HS1 : bounded_by 21 (Number.add
            (Number.mul (Number.of_int r) (Number.of_int 256))
            (Number.of_int g))).
  { apply (NumberFacts.add_bounded _ _ 20); [lia| |];
      eapply bounded_by_mono; eauto; lia. }
  assert (HS2 : bounded_by 23 (Number.add
            (Number.add (Number.mul (Number.of_int r) (Number.of_int 256))
                        (Number.of_int g))
            (Number.div (Number.of_int b) (Number.of_int 256)))).
  { apply (NumberFacts.add_bounded _ _ 22); [lia| |];
      eapply bounded_by_mono; eauto; lia. }
  apply (NumberFacts.sub_bounded _ _ 24); [lia| |].
  - eapply bounded_by_mono; [exact HS2 | lia].
  - eapply bounded_by_mono; [apply NumberFacts.lit_32768_bounded | lia].
Qed.

(** Whatever the encoding, a pixel of three bytes decodes to a finite
    binary32 value. *)
Lemma pixel_finite (encoding : string) (input : list Z) (p : nat) :
  Uint8ClampedArray_wf input → (4 * p + 2 < length input)%nat →
  Number.is_finite (pixel (select_decoder encoding) input p) = true.
Proof.
  intros Hwf Hp. unfold pixel.
  destruct (lookup_lt_is_Some_2 input (4 * p) ltac:(lia)) as [r Hr].
  destruct (lookup_lt_is_Some_2 input (4 * p + 1) ltac:(lia)) as [g Hg].
  destruct (lookup_lt_is_Some_2 input (4 * p + 2) ltac:(lia)) as [b Hb].
  rewrite Hr, Hg, Hb.
  unfold Uint8ClampedArray_wf in Hwf. rewrite Forall_lookup in Hwf.
  pose proof (Hwf _ _ Hr). pose proof (Hwf _ _ Hg). pose proof (Hwf _ _ Hb).
  unfold select_decoder. destruct (decide (encoding = "mapbox")).
  - apply (NumberFacts.bounded_is_finite 34).
    apply (NumberFacts.fround_bounded _ 33); [lia|].
    apply decoder_mapbox_bounded; assumption.
  - apply (NumberFacts.bounded_is_finite 26).
    apply (NumberFacts.fround_bounded _ 25); [lia|].
    apply decoder_terrarium_bounded; assumption.
Qed.

(** ** The loop, in closed form *)

Section Loop.
Variable decoder : option Z → option Z → option Z → spec_float.
Variable input : list Z.

Lemma decode_loop_step (i : nat) (arr : list spec_float) :
  (i < length input)%nat →
  decode_loop decoder input i arr =
  decode_loop decoder input (i + 4)
    (Float32Array_set arr (i / 4)
       (decoder (input !! i) (input !! (i + 1)%nat) (input !! (i + 2)%nat))).
Proof.
  intros Hi. rewrite decode_loop_equation_1.
  destruct (decide (i < length input)%nat); [reflexivity | lia].
Qed.

Lemma decode_loop_exit (i : nat) (arr : list spec_float) :
  (length input ≤ i)%nat → decode_loop decoder input i arr = arr.
Proof.
  intros Hi. rewrite decode_loop_equation_1.
  destruct (decide (i < length input)%nat); [lia | reflexivity].
Qed.

Lemma decode_loop_length (i : nat) (arr : list spec_float) :
  length (decode_loop decoder input i arr) = length arr.
Proof.
  funelim (decode_loop decoder input i arr); [|reflexivity].
  rewrite H. unfold Float32Array_set. apply length_insert.
Qed.

(** Started at pixel [k], the loop overwrites exactly the cells [p ≥ k]
    that exist in the array and whose first byte exists in the input. *)
Lemma decode_loop_lookup (k : nat) (arr : list spec_float) (p : nat) :
  decode_loop decoder input (4 * k) arr !! p =
    if decide (k ≤ p ∧ 4 * p < length input)%nat
    then (λ _, pixel decoder input p) <$> arr !! p
    else arr !! p.
Proof.
  remember (length input - 4 * k)%nat as n eqn:Hn.
  revert k arr Hn.
  induction (lt_wf n) as [n _ IH]; intros k arr ->.
  destruct (decide (4 * k < length input)%nat) as [Hlt | Hge].
  - rewrite decode_loop_step by exact Hlt.
    replace (4 * k + 4)%nat with (4 * S k)%nat by lia.
    rewrite (IH (length input - 4 * S k)%nat) by (lia || reflexivity).
    replace (4 * k / 4)%nat with k by (rewrite Nat.mul_comm, Nat.div_mul; lia).
    unfold Float32Array_set.
    destruct (decide (p = k)) as [-> | Hpk].
    + rewrite (decide_False (P := (S k ≤ k ∧ _)%nat)) by lia.
      rewrite (decide_True (P := (k ≤ k ∧ _)%nat)) by lia.
      destruct (decide (k < length arr)%nat) as [Hk | Hk].
      * rewrite list_lookup_insert_eq by exact Hk.
        destruct (lookup_lt_is_Some_2 arr k Hk) as [x ->].
        reflexivity.
      * rewrite list_insert_ge by lia. rewrite lookup_ge_None_2 by lia.
        reflexivity.
    + rewrite list_lookup_insert_ne by congruence.
      destruct (decide (S k ≤ p ∧ 4 * p < length input)%nat);
        [rewrite decide_True by lia | rewrite decide_False by lia];
        reflexivity.
  - rewrite decode_loop_exit by lia.
    rewrite decide_False by lia. reflexivity.
Qed.

(** The whole loop as a single pass over the output array. *)
Lemma decode_loop_imap (arr : list spec_float) :
  decode_loop decoder input 0 arr =
  imap (λ p old, if decide (4 * p < length input)%nat
                 then pixel decoder input p else old) arr.
Proof.
  apply list_eq; intros p.
  pose proof (decode_loop_lookup 0 arr p) as Hp.
  rewrite Nat.mul_0_r in Hp. rewrite Hp, list_lookup_imap.
  destruct (decide (4 * p < length input)%nat);
    [rewrite decide_True by lia | rewrite decide_False by lia];
    destruct (arr !! p); reflexivity.
Qed.
End Loop.

(** ** The store-passing reading agrees with the functional one *)

Module HeapFacts.

Lemma decode_loop_refines
    (decoder : option Z → option Z → option Z → spec_float)
    (input data : Heap.loc) (bytes : list Z) (fuel : nat) :
  ∀ (i : nat) (σ : gmap Heap.loc Heap.object) (arr : list spec_float),
    σ !! input = Some (Heap.Uint8ClampedArray bytes) →
    σ !! data = Some (Heap.Float32Array arr) →
    (length bytes - i < fuel)%nat →
    Heap.decode_loop fuel decoder input data i σ
    = Some (<[data := Heap.Float32Array (decode_loop decoder bytes i arr)]> σ).
Proof.
  induction fuel as [|fuel IH]; intros i σ arr Hin Hdata Hfuel; [lia|].
  assert (Hne : data ≠ input) by (intros ->; congruence).
  cbn [Heap.decode_loop]. unfold Heap.array_length, Heap.load. rewrite Hin.
  destruct (decide (i < length bytes)%nat) as [Hi|Hi].
  - rewrite (decode_loop_step decoder bytes i arr Hi).
    unfold Heap.store. rewrite Hdata.
    erewrite IH;
      [ | rewrite lookup_insert_ne by exact Hne; exact Hin
        | apply lookup_insert_eq
        | lia ].
    rewrite insert_insert_eq. reflexivity.
  - rewrite decode_loop_exit by lia.
    rewrite insert_id by exact Hdata. reflexivity.
Qed.

Lemma decodeParsedImage_refines (fuel : nat) (w h : Z) (encoding : string)
    (input : Heap.loc) (bytes : list Z) (st : Heap.state) :
  Heap.heap st !! input = Some (Heap.Uint8ClampedArray bytes) →
  (length bytes < fuel)%nat →
  Heap.decodeParsedImage fuel w h encoding input st
  = Some
      match decodeParsedImage w h encoding bytes with
      | inl e => (inl e, st)
      | inr t =>
          let a := fresh (dom (Heap.heap st)) in
          (inr (Heap.mkDemTileRef w h a),
           Heap.mkState (<[a := Heap.Float32Array (data t)]> (Heap.heap st))
                        (Heap.globals st))
      end.
Proof.
  intros Hin Hfuel. unfold Heap.decodeParsedImage, decodeParsedImage.
  destruct (Float32Array_new (w * h)) as [e|arr]; [reflexivity|].
  unfold Heap.alloc. set (a := fresh (dom (Heap.heap st))).
  assert (Ha : a ≠ input).
  { intros Heq. apply (is_fresh (dom (Heap.heap st))).
    fold a. rewrite Heq. apply elem_of_dom. eexists. exact Hin. }
  rewrite (decode_loop_refines _ input a bytes fuel 0
             (<[a := Heap.Float32Array arr]> (Heap.heap st)) arr);
    [ | rewrite lookup_insert_ne by exact Ha; exact Hin
      | apply lookup_insert_eq
      | lia ].
  rewrite insert_insert_eq. reflexivity.
Qed.

(** Every object that existed before the call is left as it was. *)
Lemma decodeParsedImage_frame (fuel : nat) (w h : Z) (encoding : string)
    (input : Heap.loc) (bytes : list Z) (st : Heap.state) :
  Heap.heap st !! input = Some (Heap.Uint8ClampedArray bytes) →
  (length bytes < fuel)%nat →
  ∃ r, Heap.decodeParsedImage fuel w h encoding input st = Some r
       ∧ Heap.globals r.2 = Heap.globals st
       ∧ ∀ a o, Heap.heap st !! a = Some o → Heap.heap r.2 !! a = Some o.
Proof.
  intros Hin Hfuel.
  rewrite (decodeParsedImage_refines fuel w h encoding input bytes st Hin Hfuel).
  eexists; split; [reflexivity|].
  destruct (decodeParsedImage w h encoding bytes) as [e|t]; cbn.
  - split; [reflexivity | auto].
  - split; [reflexivity|]. intros a o Ha.
    rewrite lookup_insert_ne; [exact Ha|].
    intros <-. apply (is_fresh (dom (Heap.heap st))).
    apply elem_of_dom. eexists. exact Ha.
Qed.

Lemma observe_decodeParsedImage (fuel : nat) (w h : Z) (encoding : string)
    (input : Heap.loc) (bytes : list Z) (st : Heap.state) :
  Heap.heap st !! input = Some (Heap.Uint8ClampedArray bytes) →
  (length bytes < fuel)%nat →
  ∃ r, Heap.decodeParsedImage fuel w h encoding input st = Some r
       ∧ Heap.observe r = Some (decodeParsedImage w h encoding bytes).
Proof.
  intros Hin Hfuel.
  rewrite (decodeParsedImage_refines fuel w h encoding input bytes st Hin Hfuel).
  eexists; split; [reflexivity|].
  unfold Heap.observe, decodeParsedImage.
  destruct (Float32Array_new (w * h)) as [e|arr]; cbn; [reflexivity|].
  rewrite lookup_insert_eq. reflexivity.
Qed.

End HeapFacts.

(** ** Results of [decodeParsedImage] *)

Lemma decodeParsedImage_ok (w h : Z) (encoding : string) (input : list Z) :
  0 ≤ w * h →
  decodeParsedImage w h encoding input
  = inr (mkDemTile w h
           (decode_loop (select_decoder encoding) input 0
              (replicate (Z.to_nat (w * h)) Float32.zero))).
Proof.
  intros Hwh. unfold decodeParsedImage, Float32Array_new.
  destruct (decide (w * h < 0)); [lia | reflexivity].
Qed.

Lemma decoded_lookup (decoder : option Z → option Z → option Z → spec_float)
    (input : list Z) (n p : nat) :
  decode_loop decoder input 0 (replicate n Float32.zero) !! p
  = if decide (p < n)%nat
    then Some (if decide (4 * p < length input)%nat
               then pixel decoder input p else Float32.zero)
    else None.
Proof.
  rewrite decode_loop_imap, list_lookup_imap.
  destruct (decide (p < n)%nat) as [Hp|Hp].
  - rewrite lookup_replicate_2 by exact Hp. reflexivity.
  - rewrite lookup_ge_None_2 by (rewrite length_replicate; lia). reflexivity.
Qed.

Lemma pixel_bytes (decoder : option Z → option Z → option Z → spec_float)
    (input : list Z) (p : nat) :
  (4 * p + 3 < length input)%nat →
  ∃ R G B,
    input !! (4 * p)%nat = Some R ∧ input !! (4 * p + 1)%nat = Some G
    ∧ input !! (4 * p + 2)%nat = Some B
    ∧ pixel decoder input p
      = Float32.fround (decoder (Some R) (Some G) (Some B)).
Proof.
  intros Hp. unfold pixel.
  destruct (lookup_lt_is_Some_2 input (4 * p) ltac:(lia)) as [R HR].
  destruct (lookup_lt_is_Some_2 input (4 * p + 1) ltac:(lia)) as [G HG].
  destruct (lookup_lt_is_Some_2 input (4 * p + 2) ltac:(lia)) as [B HB].
  exists R, G, B. rewrite HR, HG, HB. auto.
Qed.

(** C1. With the "mapbox" encoding and a buffer of [4 * width * height]
    bytes, the call returns a grid whose cell [p] is the binary32 value of
    [-10000 + (R*65536 + G*256 + B) * 0.1], where [R], [G], [B] are the
    bytes [4p], [4p+1], [4p+2] of the buffer: the integer
    [R*65536 + G*256 + B] times the binary64 number [0.1], added to
    [-10000] in binary64 and rounded to binary32. *)
Theorem mapbox_pixel_value (w h : Z) (input : list Z) (p : nat) :
  Uint8ClampedArray_wf input →
  Z.of_nat (length input) = 4 * w * h →
  Z.of_nat p < w * h →
  ∃ tile R G B,
    decodeParsedImage w h "mapbox" input = inr tile
    ∧ input !! (4 * p)%nat = Some R
    ∧ input !! (4 * p + 1)%nat = Some G
    ∧ input !! (4 * p + 2)%nat = Some B
    ∧ data tile !! p = Some (Float32.fround (mapbox_elevation R G B)).
Proof.
  intros Hwf Hlen Hp.
  rewrite decodeParsedImage_ok by lia.
  destruct (pixel_bytes (select_decoder "mapbox") input p ltac:(lia))
    as (R & G & B & HR & HG & HB & Hpix).
  eexists _, R, G, B. split; [reflexivity|]. repeat (split; [assumption|]).
  cbn [data]. rewrite decoded_lookup.
  rewrite decide_True by lia. rewrite decide_True by lia.
  rewrite Hpix. unfold select_decoder. rewrite decide_True by reflexivity.
  unfold Uint8ClampedArray_wf in Hwf. rewrite Forall_lookup in Hwf.
  rewrite decoder_mapbox_spec by eauto. reflexivity.
Qed.

Lemma mapbox_pixel_value_witness :
  Uint8ClampedArray_wf [1; 134; 160; 255]
  ∧ Z.of_nat (length [1; 134; 160; 255]) = 4 * 1 * 1
  ∧ Z.of_nat 0 < 1 * 1
  ∧ ∃ tile R G B,
      decodeParsedImage 1 1 "mapbox" [1; 134; 160; 255] = inr tile
      ∧ [1; 134; 160; 255] !! (4 * 0)%nat = Some R
      ∧ [1; 134; 160; 255] !! (4 * 0 + 1)%nat = Some G
      ∧ [1; 134; 160; 255] !! (4 * 0 + 2)%nat = Some B
      ∧ data tile !! 0%nat = Some (Float32.fround (mapbox_elevation R G B)).
Proof.
  assert (H1 : Uint8ClampedArray_wf [1; 134; 160; 255]) by solve_wf.
  assert (H2 : Z.of_nat (length [1; 134; 160; 255]) = 4 * 1 * 1) by reflexivity.
  assert (H3 : Z.of_nat 0 < 1 * 1) by reflexivity.
  exact (conj H1 (conj H2 (conj H3
           (mapbox_pixel_value 1 1 [1; 134; 160; 255] 0 H1 H2 H3)))).
Defined.

(** C2. With the "terrarium" encoding and a buffer of [4 * width * height]
    bytes, the call returns a grid whose cell [p] is the binary32 value of
    [R*256 + G + B/256 - 32768], where [R], [G], [B] are the bytes [4p],
    [4p+1], [4p+2] of the buffer.  No step of the formula rounds: 256
    times the cell is exactly the integer [65536 R + 256 G + B - 8388608]. *)
Theorem terrarium_pixel_value (w h : Z) (input : list Z) (p : nat) :
  Uint8ClampedArray_wf input →
  Z.of_nat (length input) = 4 * w * h →
  Z.of_nat p < w * h →
  ∃ tile R G B,
    decodeParsedImage w h "terrarium" input = inr tile
    ∧ input !! (4 * p)%nat = Some R
    ∧ input !! (4 * p + 1)%nat = Some G
    ∧ input !! (4 * p + 2)%nat = Some B
    ∧ data tile !! p = Some (Float32.fround (terrarium_elevation R G B))
    ∧ scaled (-8) (Float32.fround (terrarium_elevation R G B))
      = Some (65536 * R + 256 * G + B - 8388608).
Proof.
  intros Hwf Hlen Hp.
  rewrite decodeParsedImage_ok by lia.
  destruct (pixel_bytes (select_decoder "terrarium") input p ltac:(lia))
    as (R & G & B & HR & HG & HB & Hpix).
  eexists _, R, G, B. split; [reflexivity|]. repeat (split; [assumption|]).
  split.
  - cbn [data]. rewrite decoded_lookup.
    rewrite decide_True by lia. rewrite decide_True by lia.
    rewrite Hpix. unfold select_decoder. rewrite decide_False by discriminate.
    rewrite decoder_terrarium_spec. reflexivity.
  - unfold Uint8ClampedArray_wf in Hwf. rewrite Forall_lookup in Hwf.
    apply terrarium_elevation_exact; eauto.
Qed.

Lemma terrarium_pixel_value_witness :
  Uint8ClampedArray_wf [128; 1; 128; 255]
  ∧ Z.of_nat (length [128; 1; 128; 255]) = 4 * 1 * 1
  ∧ Z.of_nat 0 < 1 * 1
  ∧ ∃ tile R G B,
      decodeParsedImage 1 1 "terrarium" [128; 1; 128; 255] = inr tile
      ∧ [128; 1; 128; 255] !! (4 * 0)%nat = Some R
      ∧ [128; 1; 128; 255] !! (4 * 0 + 1)%nat = Some G
      ∧ [128; 1; 128; 255] !! (4 * 0 + 2)%nat = Some B
      ∧ data tile !! 0%nat = Some (Float32.fround (terrarium_elevation R G B))
      ∧ scaled (-8) (Float32.fround (terrarium_elevation R G B))
        = Some (65536 * R + 256 * G + B - 8388608).
Proof.
  assert (H1 : Uint8ClampedArray_wf [128; 1; 128; 255]) by solve_wf.
  assert (H2 : Z.of_nat (length [128; 1; 128; 255]) = 4 * 1 * 1) by reflexivity.
  assert (H3 : Z.of_nat 0 < 1 * 1) by reflexivity.
  exact (conj H1 (conj H2 (conj H3
           (terrarium_pixel_value 1 1 [128; 1; 128; 255] 0 H1 H2 H3)))).
Defined.

(** C3 (as the code has it). The encoding is only compared with "mapbox":
    with any other identifier, recognised or not, the function behaves as
    with "terrarium", and raises no error of its own. *)
Theorem other_encoding_is_terrarium (w h : Z) (encoding : string)
    (input : list Z) :
  encoding ≠ "mapbox" →
  decodeParsedImage w h encoding input
  = decodeParsedImage w h "terrarium" input.
Proof.
  intros Hne. unfold decodeParsedImage, select_decoder.
  rewrite decide_False by exact Hne.
  rewrite decide_False by discriminate. reflexivity.
Qed.

Lemma other_encoding_is_terrarium_witness :
  "geotiff" ≠ "mapbox"
  ∧ decodeParsedImage 1 1 "geotiff" [128; 1; 128; 255]
    = decodeParsedImage 1 1 "terrarium" [128; 1; 128; 255].
Proof.
  assert (H1 : "geotiff" ≠ "mapbox") by discriminate.
  exact (conj H1
           (other_encoding_is_terrarium 1 1 "geotiff" [128; 1; 128; 255] H1)).
Defined.

(** C3 as stated fails: "geotiff" is not a recognised encoding, yet the
    call returns a tile, the one the terrarium formula gives (1.5). *)
Lemma unrecognized_encoding_returns_tile :
  "geotiff" ≠ "mapbox" ∧ "geotiff" ≠ "terrarium"
  ∧ decodeParsedImage 1 1 "geotiff" [128; 1; 128; 255]
    = inr (mkDemTile 1 1 [S754_finite false 12582912 (-23)])
  ∧ ¬ (∃ e, decodeParsedImage 1 1 "geotiff" [128; 1; 128; 255] = inl e).
Proof.
  split; [discriminate|]. split; [discriminate|].
  assert (H : decodeParsedImage 1 1 "geotiff" [128; 1; 128; 255]
              = inr (mkDemTile 1 1 [S754_finite false 12582912 (-23)]))
    by (vm_compute; reflexivity).
  split; [exact H|]. intros [e He]. rewrite H in He. discriminate He.
Qed.

(** C4. With width 0, height 0 and an empty buffer the result is the
    empty grid, for every encoding; no exception is raised. *)
Theorem empty_buffer_empty_grid (encoding : string) :
  decodeParsedImage 0 0 encoding [] = inr (mkDemTile 0 0 []).
Proof.
  rewrite decodeParsedImage_ok by lia.
  rewrite decode_loop_exit by (cbn; lia). reflexivity.
Qed.

(** C5. For a buffer of bytes of length [4 * width * height] the call
    returns a tile, for every encoding, and every cell of the grid is a
    finite number. *)
Theorem decoded_values_finite (w h : Z) (encoding : string) (input : list Z) :
  Uint8ClampedArray_wf input →
  Z.of_nat (length input) = 4 * w * h →
  ∃ tile,
    decodeParsedImage w h encoding input = inr tile
    ∧ Forall (λ x, Number.is_finite x = true) (data tile).
Proof.
  intros Hwf Hlen.
  rewrite decodeParsedImage_ok by lia.
  eexists. split; [reflexivity|]. cbn [data].
  apply Forall_lookup. intros p x Hx.
  rewrite decoded_lookup in Hx.
  destruct (decide (p < Z.to_nat (w * h))%nat) as [Hp|]; [|discriminate].
  rewrite decide_True in Hx by lia.
  injection Hx as <-.
  apply pixel_finite; [exact Hwf | lia].
Qed.

Lemma decoded_values_finite_witness :
  Uint8ClampedArray_wf [1; 134; 160; 255; 255; 255; 255; 0]
  ∧ Z.of_nat (length [1; 134; 160; 255; 255; 255; 255; 0]) = 4 * 2 * 1
  ∧ ∃ tile,
      decodeParsedImage 2 1 "mapbox" [1; 134; 160; 255; 255; 255; 255; 0]
      = inr tile
      ∧ Forall (λ x, Number.is_finite x = true) (data tile).
Proof.
  assert (H1 : Uint8ClampedArray_wf [1; 134; 160; 255; 255; 255; 255; 0])
    by solve_wf.
  assert (H2 : Z.of_nat (length [1; 134; 160; 255; 255; 255; 255; 0]) = 4 * 2 * 1)
    by reflexivity.
  exact (conj H1 (conj H2
           (decoded_values_finite 2 1 "mapbox"
              [1; 134; 160; 255; 255; 255; 255; 0] H1 H2))).
Defined.

(** C6. Two buffers of the same length that agree on the bytes [4p],
    [4p+1] and [4p+2] of every pixel decode to the same result, whatever
    their alpha bytes are. *)
Theorem alpha_ignored (w h : Z) (encoding : string) (input1 input2 : list Z) :
  length input1 = length input2 →
  (∀ p : nat,
     input1 !! (4 * p)%nat = input2 !! (4 * p)%nat
     ∧ input1 !! (4 * p + 1)%nat = input2 !! (4 * p + 1)%nat
     ∧ input1 !! (4 * p + 2)%nat = input2 !! (4 * p + 2)%nat) →
  decodeParsedImage w h encoding input1 = decodeParsedImage w h encoding input2.
Proof.
  intros Hlen Hrgb. unfold decodeParsedImage.
  destruct (Float32Array_new (w * h)) as [e|arr]; [reflexivity|].
  do 2 f_equal. rewrite !decode_loop_imap.
  apply imap_ext. intros p x _. cbn beta.
  rewrite Hlen. unfold pixel.
  destruct (Hrgb p) as (-> & -> & ->). reflexivity.
Qed.

Lemma alpha_ignored_witness :
  length [128; 1; 128; 255] = length [128; 1; 128; 0]
  ∧ (∀ p : nat,
       [128; 1; 128; 255] !! (4 * p)%nat = [128; 1; 128; 0] !! (4 * p)%nat
       ∧ [128; 1; 128; 255] !! (4 * p + 1)%nat
         = [128; 1; 128; 0] !! (4 * p + 1)%nat
       ∧ [128; 1; 128; 255] !! (4 * p + 2)%nat
         = [128; 1; 128; 0] !! (4 * p + 2)%nat)
  ∧ decodeParsedImage 1 1 "terrarium" [128; 1; 128; 255]
    = decodeParsedImage 1 1 "terrarium" [128; 1; 128; 0].
Proof.
  assert (H1 : length [128; 1; 128; 255] = length [128; 1; 128; 0])
    by reflexivity.
  assert (H2 : ∀ p : nat,
       [128; 1; 128; 255] !! (4 * p)%nat = [128; 1; 128; 0] !! (4 * p)%nat
       ∧ [128; 1; 128; 255] !! (4 * p + 1)%nat
         = [128; 1; 128; 0] !! (4 * p + 1)%nat
       ∧ [128; 1; 128; 255] !! (4 * p + 2)%nat
         = [128; 1; 128; 0] !! (4 * p + 2)%nat).
  { intros [|p].
    - repeat split.
    - replace (4 * S p)%nat with (S (S (S (S (4 * p))))) by lia.
      repeat split. }
  exact (conj H1 (conj H2
           (alpha_ignored 1 1 "terrarium" [128; 1; 128; 255] [128; 1; 128; 0]
              H1 H2))).
Defined.

(** C7. The outcome of a call is determined by its arguments: run in any
    two states in which the buffer passed holds the same bytes, whatever
    else the stores and the module-level variables hold, the two calls
    return and show the caller the same thing (the same exception, or
    tiles of equal width, height and array contents), which is the value
    of the functional reading; the module-level variables are left as
    they were. *)
Theorem decodeParsedImage_deterministic (fuel1 fuel2 : nat) (w h : Z)
    (encoding : string) (bytes : list Z)
    (input1 input2 : Heap.loc) (st1 st2 : Heap.state) :
  Heap.heap st1 !! input1 = Some (Heap.Uint8ClampedArray bytes) →
  Heap.heap st2 !! input2 = Some (Heap.Uint8ClampedArray bytes) →
  (length bytes < fuel1)%nat → (length bytes < fuel2)%nat →
  ∃ r1 r2,
    Heap.decodeParsedImage fuel1 w h encoding input1 st1 = Some r1
    ∧ Heap.decodeParsedImage fuel2 w h encoding input2 st2 = Some r2
    ∧ Heap.observe r1 = Heap.observe r2
    ∧ Heap.observe r1 = Some (decodeParsedImage w h encoding bytes)
    ∧ Heap.globals r1.2 = Heap.globals st1
    ∧ Heap.globals r2.2 = Heap.globals st2.
Proof.
  intros Hin1 Hin2 Hfuel1 Hfuel2.
  destruct (HeapFacts.observe_decodeParsedImage fuel1 w h encoding input1
              bytes st1 Hin1 Hfuel1) as (r1 & Hr1 & Ho1).
  destruct (HeapFacts.observe_decodeParsedImage fuel2 w h encoding input2
              bytes st2 Hin2 Hfuel2) as (r2 & Hr2 & Ho2).
  destruct (HeapFacts.decodeParsedImage_frame fuel1 w h encoding input1
              bytes st1 Hin1 Hfuel1) as (r1' & Hr1' & Hg1 & _).
  destruct (HeapFacts.decodeParsedImage_frame fuel2 w h encoding input2
              bytes st2 Hin2 Hfuel2) as (r2' & Hr2' & Hg2 & _).
  assert (r1' = r1) as -> by congruence.
  assert (r2' = r2) as -> by congruence.
  exists r1, r2. rewrite Ho1, Ho2. auto 10.
Qed.

Lemma decodeParsedImage_deterministic_witness :
  Heap.heap sample_state_1 !! 1%positive
  = Some (Heap.Uint8ClampedArray [128; 1; 128; 255])
  ∧ Heap.heap sample_state_2 !! 7%positive
    = Some (Heap.Uint8ClampedArray [128; 1; 128; 255])
  ∧ (length [128; 1; 128; 255] < 5)%nat
  ∧ (length [128; 1; 128; 255] < 9)%nat
  ∧ ∃ r1 r2,
      Heap.decodeParsedImage 5 1 1 "terrarium" 1%positive sample_state_1
      = Some r1
      ∧ Heap.decodeParsedImage 9 1 1 "terrarium" 7%positive sample_state_2
        = Some r2
      ∧ Heap.observe r1 = Heap.observe r2
      ∧ Heap.observe r1
        = Some (decodeParsedImage 1 1 "terrarium" [128; 1; 128; 255])
      ∧ Heap.globals r1.2 = Heap.globals sample_state_1
      ∧ Heap.globals r2.2 = Heap.globals sample_state_2.
Proof.
  assert (H1 : Heap.heap sample_state_1 !! 1%positive
               = Some (Heap.Uint8ClampedArray [128; 1; 128; 255]))
    by (vm_compute; reflexivity).
  assert (H2 : Heap.heap sample_state_2 !! 7%positive
               = Some (Heap.Uint8ClampedArray [128; 1; 128; 255]))
    by (vm_compute; reflexivity).
  assert (H3 : (length [128; 1; 128; 255] < 5)%nat) by (cbn; lia).
  assert (H4 : (length [128; 1; 128; 255] < 9)%nat) by (cbn; lia).
  exact (conj H1 (conj H2 (conj H3 (conj H4
           (decodeParsedImage_deterministic 5 9 1 1 "terrarium"
              [128; 1; 128; 255] 1%positive 7%positive
              sample_state_1 sample_state_2 H1 H2 H3 H4))))).
Defined.

(** C8. The call returns, and afterwards the buffer passed holds the
    bytes it held before. *)
Theorem input_buffer_unchanged (fuel : nat) (w h : Z) (encoding : string)
    (input : Heap.loc) (bytes : list Z) (st : Heap.state) :
  Heap.heap st !! input = Some (Heap.Uint8ClampedArray bytes) →
  (length bytes < fuel)%nat →
  ∃ r,
    Heap.decodeParsedImage fuel w h encoding input st = Some r
    ∧ Heap.heap r.2 !! input = Some (Heap.Uint8ClampedArray bytes).
Proof.
  intros Hin Hfuel.
  destruct (HeapFacts.decodeParsedImage_frame fuel w h encoding input
              bytes st Hin Hfuel) as (r & Hr & _ & Hframe).
  exists r. split; [exact Hr | apply Hframe, Hin].
Qed.

Lemma input_buffer_unchanged_witness :
  Heap.heap sample_state_2 !! 7%positive
  = Some (Heap.Uint8ClampedArray [128; 1; 128; 255])
  ∧ (length [128; 1; 128; 255] < 5)%nat
  ∧ ∃ r,
      Heap.decodeParsedImage 5 1 1 "mapbox" 7%positive sample_state_2 = Some r
      ∧ Heap.heap r.2 !! 7%positive
        = Some (Heap.Uint8ClampedArray [128; 1; 128; 255]).
Proof.
  assert (H1 : Heap.heap sample_state_2 !! 7%positive
               = Some (Heap.Uint8ClampedArray [128; 1; 128; 255]))
    by (vm_compute; reflexivity).
  assert (H2 : (length [128; 1; 128; 255] < 5)%nat) by (cbn; lia).
  exact (conj H1 (conj H2
           (input_buffer_unchanged 5 1 1 "mapbox" 7%positive
              [128; 1; 128; 255] sample_state_2 H1 H2))).
Defined.

(** C9. For buffers of length [4 * width * height], cell [p] of the grid
    depends on the bytes [4p], [4p+1], [4p+2] only: two buffers that agree
    there give the same cell [p], whatever their other bytes are. *)
Theorem pixel_independent (w h : Z) (encoding : string)
    (input1 input2 : list Z) (p : nat) :
  Z.of_nat (length input1) = 4 * w * h →
  Z.of_nat (length input2) = 4 * w * h →
  input1 !! (4 * p)%nat = input2 !! (4 * p)%nat →
  input1 !! (4 * p + 1)%nat = input2 !! (4 * p + 1)%nat →
  input1 !! (4 * p + 2)%nat = input2 !! (4 * p + 2)%nat →
  ∃ tile1 tile2,
    decodeParsedImage w h encoding input1 = inr tile1
    ∧ decodeParsedImage w h encoding input2 = inr tile2
    ∧ data tile1 !! p = data tile2 !! p.
Proof.
  intros Hlen1 Hlen2 HR HG HB.
  rewrite !decodeParsedImage_ok by lia.
  eexists _, _. split; [reflexivity|]. split; [reflexivity|].
  cbn [data]. rewrite !decoded_lookup.
  destruct (decide (p < Z.to_nat (w * h))%nat); [|reflexivity].
  rewrite !decide_True by lia.
  unfold pixel. rewrite HR, HG, HB. reflexivity.
Qed.

Lemma pixel_independent_witness :
  Z.of_nat (length [1; 2; 3; 4; 5; 6; 7; 8]) = 4 * 2 * 1
  ∧ Z.of_nat (length [1; 2; 3; 0; 50; 60; 70; 80]) = 4 * 2 * 1
  ∧ [1; 2; 3; 4; 5; 6; 7; 8] !! (4 * 0)%nat
    = [1; 2; 3; 0; 50; 60; 70; 80] !! (4 * 0)%nat
  ∧ [1; 2; 3; 4; 5; 6; 7; 8] !! (4 * 0 + 1)%nat
    = [1; 2; 3; 0; 50; 60; 70; 80] !! (4 * 0 + 1)%nat
  ∧ [1; 2; 3; 4; 5; 6; 7; 8] !! (4 * 0 + 2)%nat
    = [1; 2; 3; 0; 50; 60; 70; 80] !! (4 * 0 + 2)%nat
  ∧ ∃ tile1 tile2,
      decodeParsedImage 2 1 "mapbox" [1; 2; 3; 4; 5; 6; 7; 8] = inr tile1
      ∧ decodeParsedImage 2 1 "mapbox" [1; 2; 3; 0; 50; 60; 70; 80] = inr tile2
      ∧ data tile1 !! 0%nat = data tile2 !! 0%nat.
Proof.
  assert (H1 : Z.of_nat (length [1; 2; 3; 4; 5; 6; 7; 8]) = 4 * 2 * 1)
    by reflexivity.
  assert (H2 : Z.of_nat (length [1; 2; 3; 0; 50; 60; 70; 80]) = 4 * 2 * 1)
    by reflexivity.
  exact (conj H1 (conj H2 (conj eq_refl (conj eq_refl (conj eq_refl
           (pixel_independent 2 1 "mapbox" [1; 2; 3; 4; 5; 6; 7; 8]
              [1; 2; 3; 0; 50; 60; 70; 80] 0 H1 H2 eq_refl eq_refl eq_refl)))))).
Defined.

(** In an engine that can allocate the array, the call is the one of
    the function without limits. *)
Lemma decodeParsedImage_in_within (capacity w h : Z) (encoding : string)
    (input : list Z) :
  w * h ≤ Z.min capacity max_array_length →
  decodeParsedImage_in capacity w h encoding input
  = decodeParsedImage w h encoding input.
Proof.
  intros Hcap.
  unfold decodeParsedImage_in, decodeParsedImage, Float32Array_new_in,
    Float32Array_new.
  destruct (decide (w * h < 0)); [reflexivity|].
  rewrite decide_False by lia. reflexivity.
Qed.

(** Whatever the capacity, a tile that is returned is the tile of the
    function without limits. *)
Lemma decodeParsedImage_in_returns (capacity w h : Z) (encoding : string)
    (input : list Z) (tile : DemTile) :
  decodeParsedImage_in capacity w h encoding input = inr tile →
  decodeParsedImage w h encoding input = inr tile.
Proof.
  unfold decodeParsedImage_in, decodeParsedImage, Float32Array_new_in,
    Float32Array_new.
  destruct (decide (w * h < 0)); [discriminate|].
  destruct (decide (Z.min capacity max_array_length < w * h));
    [discriminate | auto].
Qed.

(** A length that is negative or too large for the engine is refused. *)
Lemma decodeParsedImage_in_refused (capacity w h : Z) (encoding : string)
    (input : list Z) :
  w * h < 0 ∨ Z.min capacity max_array_length < w * h →
  decodeParsedImage_in capacity w h encoding input = inl RangeError.
Proof.
  intros Hwh. unfold decodeParsedImage_in, Float32Array_new_in.
  destruct (decide (w * h < 0)); [reflexivity|].
  rewrite decide_True by lia. reflexivity.
Qed.

(** C10 (as the code has it). For non-negative width and height whose
    product is a length the engine can allocate, at most [2 ^ 53 - 1],
    the call returns a tile whatever the length of the buffer: the tile
    has the given width and height and an array of [width * height]
    cells; the bytes from index [4 * width * height] on play no part;
    and a cell whose pixel starts past the end of the buffer holds the
    initial [+0]. *)
Theorem any_length_returns_within_capacity (capacity w h : Z)
    (encoding : string) (input : list Z) :
  0 ≤ w → 0 ≤ h →
  w * h ≤ Z.min capacity max_array_length →
  ∃ tile,
    decodeParsedImage_in capacity w h encoding input = inr tile
    ∧ width tile = w ∧ height tile = h
    ∧ Z.of_nat (length (data tile)) = w * h
    ∧ decodeParsedImage_in capacity w h encoding
        (take (Z.to_nat (4 * w * h)) input)
      = inr tile
    ∧ ∀ p : nat,
        Z.of_nat p < w * h → (length input ≤ 4 * p)%nat →
        data tile !! p = Some Float32.zero.
Proof.
  intros Hw Hh Hcap.
  assert (Hwh : 0 ≤ w * h) by lia.
  rewrite !decodeParsedImage_in_within by exact Hcap.
  rewrite !decodeParsedImage_ok by exact Hwh.
  eexists. split; [reflexivity|]. cbn [width height data].
  split; [reflexivity|]. split; [reflexivity|].
  split; [|split].
  - rewrite decode_loop_length, length_replicate. lia.
  - do 2 f_equal. apply list_eq. intros p.
    rewrite !decoded_lookup.
    destruct (decide (p < Z.to_nat (w * h))%nat) as [Hp|]; [|reflexivity].
    f_equal. rewrite length_take.
    assert (Hlook : ∀ j : nat, (j < 3)%nat →
              take (Z.to_nat (4 * w * h)) input !! (4 * p + j)%nat
              = input !! (4 * p + j)%nat)
      by (intros j Hj; apply lookup_take_lt; lia).
    destruct (decide (4 * p < length input)%nat).
    + rewrite decide_True by lia. unfold pixel.
      rewrite <- (Nat.add_0_r (4 * p)) at 1 4.
      rewrite !Hlook by lia. rewrite Nat.add_0_r. reflexivity.
    + rewrite decide_False by lia. reflexivity.
  - intros p Hp Hlen. rewrite decoded_lookup.
    rewrite decide_True by lia. rewrite decide_False by lia. reflexivity.
Qed.

Lemma any_length_returns_within_capacity_witness :
  0 ≤ 2 ∧ 0 ≤ 1
  ∧ 2 * 1 ≤ Z.min 1000 max_array_length
  ∧ ∃ tile,
      decodeParsedImage_in 1000 2 1 "terrarium" [128; 1; 128] = inr tile
      ∧ width tile = 2 ∧ height tile = 1
      ∧ Z.of_nat (length (data tile)) = 2 * 1
      ∧ decodeParsedImage_in 1000 2 1 "terrarium"
          (take (Z.to_nat (4 * 2 * 1)) [128; 1; 128])
        = inr tile
      ∧ ∀ p : nat,
          Z.of_nat p < 2 * 1 → (length [128; 1; 128] ≤ 4 * p)%nat →
          data tile !! p = Some Float32.zero.
Proof.
  assert (H1 : 0 ≤ 2) by lia.
  assert (H2 : 0 ≤ 1) by lia.
  assert (H3 : 2 * 1 ≤ Z.min 1000 max_array_length)
    by (vm_compute; discriminate).
  exact (conj H1 (conj H2 (conj H3
           (any_length_returns_within_capacity 1000 2 1 "terrarium"
              [128; 1; 128] H1 H2 H3)))).
Defined.

(** C10 as stated fails: width and height 2147483648 are non-negative,
    yet with the empty buffer the call throws a [RangeError], whatever
    the engine can allocate: the length asked for is [2 ^ 62]. *)
Lemma huge_dimensions_throw :
  0 ≤ 2147483648
  ∧ (∀ capacity : Z,
       decodeParsedImage_in capacity 2147483648 2147483648 "mapbox" []
       = inl RangeError)
  ∧ ¬ (∃ (capacity : Z) (tile : DemTile),
         decodeParsedImage_in capacity 2147483648 2147483648 "mapbox" []
         = inr tile).
Proof.
  assert (H : ∀ capacity : Z,
            decodeParsedImage_in capacity 2147483648 2147483648 "mapbox" []
            = inl RangeError).
  { intros capacity. apply decodeParsedImage_in_refused. right.
    unfold max_array_length. lia. }
  split; [lia|]. split; [exact H|].
  intros (capacity & tile & Ht). rewrite H in Ht. discriminate Ht.
Qed.

(** * Further properties of the code *)

(** ** [decodeParsedImage]: failures, truncated buffers, composition *)














(** X5. With the "terrarium" encoding nothing is lost: the cell of a
    pixel determines its red, green and blue bytes.  Two buffers of
    [4 * width * height] bytes whose cells [p] are equal have the same
    bytes [4p], [4p+1] and [4p+2]. *)
Theorem terrarium_cell_determines_bytes (w h : Z) (input1 input2 : list Z)
    (p : nat) :
  Uint8ClampedArray_wf input1 → Uint8ClampedArray_wf input2 →
  Z.of_nat (length input1) = 4 * w * h →
  Z.of_nat (length input2) = 4 * w * h →
  Z.of_nat p < w * h →
  ∃ tile1 tile2,
    decodeParsedImage w h "terrarium" input1 = inr tile1
    ∧ decodeParsedImage w h "terrarium" input2 = inr tile2
    ∧ (data tile1 !! p = data tile2 !! p →
       input1 !! (4 * p)%nat = input2 !! (4 * p)%nat
       ∧ input1 !! (4 * p + 1)%nat = input2 !! (4 * p + 1)%nat
       ∧ input1 !! (4 * p + 2)%nat = input2 !! (4 * p + 2)%nat).
Proof.
  intros Hwf1 Hwf2 Hlen1 Hlen2 Hp.
  rewrite !decodeParsedImage_ok by lia.
  eexists _, _. do 2 (split; [reflexivity|]). cbn [data].
  rewrite !decoded_lookup. rewrite !decide_True by lia.
  destruct (pixel_bytes (select_decoder "terrarium") input1 p ltac:(lia))
    as (R1 & G1 & B1 & HR1 & HG1 & HB1 & Hpix1).
  destruct (pixel_bytes (select_decoder "terrarium") input2 p ltac:(lia))
    as (R2 & G2 & B2 & HR2 & HG2 & HB2 & Hpix2).
  rewrite Hpix1, Hpix2, HR1, HG1, HB1, HR2, HG2, HB2.
  unfold select_decoder. rewrite decide_False by discriminate.
  rewrite !decoder_terrarium_spec.
  unfold Uint8ClampedArray_wf in Hwf1, Hwf2.
  rewrite Forall_lookup in Hwf1, Hwf2.
  pose proof (Hwf1 _ _ HR1) as [? ?]. pose proof (Hwf1 _ _ HG1) as [? ?].
  pose proof (Hwf1 _ _ HB1) as [? ?]. pose proof (Hwf2 _ _ HR2) as [? ?].
  pose proof (Hwf2 _ _ HG2) as [? ?]. pose proof (Hwf2 _ _ HB2) as [? ?].
  pose proof (terrarium_elevation_exact R1 G1 B1
                ltac:(unfold is_uint8; lia) ltac:(unfold is_uint8; lia)
                ltac:(unfold is_uint8; lia)) as He1.
  pose proof (terrarium_elevation_exact R2 G2 B2
                ltac:(unfold is_uint8; lia) ltac:(unfold is_uint8; lia)
                ltac:(unfold is_uint8; lia)) as He2.
  intros [= Heq]. rewrite Heq in He1. rewrite He1 in He2.
  injection He2 as He2.
  assert (R1 = R2 ∧ G1 = G2 ∧ B1 = B2) as (-> & -> & ->) by lia.
  auto.
Qed.

Lemma terrarium_cell_determines_bytes_witness :
  Uint8ClampedArray_wf [128; 1; 128; 255]
  ∧ Uint8ClampedArray_wf [128; 1; 128; 0]
  ∧ Z.of_nat (length [128; 1; 128; 255]) = 4 * 1 * 1
  ∧ Z.of_nat (length [128; 1; 128; 0]) = 4 * 1 * 1
  ∧ Z.of_nat 0 < 1 * 1
  ∧ ∃ tile1 tile2,
      decodeParsedImage 1 1 "terrarium" [128; 1; 128; 255] = inr tile1
      ∧ decodeParsedImage 1 1 "terrarium" [128; 1; 128; 0] = inr tile2
      ∧ (data tile1 !! 0%nat = data tile2 !! 0%nat →
         [128; 1; 128; 255] !! (4 * 0)%nat = [128; 1; 128; 0] !! (4 * 0)%nat
         ∧ [128; 1; 128; 255] !! (4 * 0 + 1)%nat
           = [128; 1; 128; 0] !! (4 * 0 + 1)%nat
         ∧ [128; 1; 128; 255] !! (4 * 0 + 2)%nat
           = [128; 1; 128; 0] !! (4 * 0 + 2)%nat).
Proof.
  assert (H1 : Uint8ClampedArray_wf [128; 1; 128; 255]) by solve_wf.
  assert (H2 : Uint8ClampedArray_wf [128; 1; 128; 0]) by solve_wf.
  assert (H3 : Z.of_nat (length [128; 1; 128; 255]) = 4 * 1 * 1) by reflexivity.
  assert (H4 : Z.of_nat (length [128; 1; 128; 0]) = 4 * 1 * 1) by reflexivity.
  assert (H5 : Z.of_nat 0 < 1 * 1) by reflexivity.
  exact (conj H1 (conj H2 (conj H3 (conj H4 (conj H5
           (terrarium_cell_determines_bytes 1 1 [128; 1; 128; 255]
              [128; 1; 128; 0] 0 H1 H2 H3 H4 H5)))))).
Defined.

(** ** [decodeParsedImage] over the store: the array returned *)





(** ** The canvas path *)

(** Every cell of the grid of a buffer of [4 * width * height] bytes is
    finite. *)
Lemma decoded_cells_finite (w h : Z) (encoding : string) (input : list Z) :
  Uint8ClampedArray_wf input →
  Z.of_nat (length input) = 4 * w * h →
  Forall (λ x, Number.is_finite x = true)
    (decode_loop (select_decoder encoding) input 0
       (replicate (Z.to_nat (w * h)) Float32.zero)).
Proof.
  intros Hwf Hlen. apply Forall_lookup. intros p x Hx.
  rewrite decoded_lookup in Hx.
  destruct (decide (p < Z.to_nat (w * h))%nat) as [Hp|]; [|discriminate].
  rewrite decide_True in Hx by lia. injection Hx as <-.
  apply pixel_finite; [exact Hwf | lia].
Qed.

Lemma getElevations_readable (img : Canvas.Image) (encoding : string)
    (c : Canvas.canvas) :
  Canvas.readable img →
  ∃ tile,
    Canvas.getElevations img encoding c true
    = (inr tile,
       Canvas.mkCanvas (Canvas.canvas_id c) (Canvas.img_width img)
                       (Canvas.img_height img))
    ∧ width tile = Canvas.img_width img
    ∧ height tile = Canvas.img_height img
    ∧ Z.of_nat (length (data tile))
      = Canvas.img_width img * Canvas.img_height img
    ∧ Forall (λ x, Number.is_finite x = true) (data tile).
Proof.
  intros (Hw & Hh & rgba & Hdrawn & Hwf & Hlen).
  unfold Canvas.getElevations. rewrite Hdrawn.
  rewrite decodeParsedImage_ok by nia.
  eexists. split; [reflexivity|]. cbn [width height data].
  split; [reflexivity|]. split; [reflexivity|]. split.
  - rewrite decode_loop_length, length_replicate. nia.
  - apply decoded_cells_finite; assumption.
Qed.

(** X8. [getElevations], given a context and an image the browser can
    draw and read back, returns a tile of the size of the image, with
    one cell per pixel and every cell finite, and leaves the canvas, the
    same object, at the size of the image. *)
Theorem getElevations_returns_finite_tile (img : Canvas.Image)
    (encoding : string) (c : Canvas.canvas) :
  Canvas.readable img →
  ∃ tile c',
    Canvas.getElevations img encoding c true = (inr tile, c')
    ∧ Canvas.canvas_id c' = Canvas.canvas_id c
    ∧ Canvas.canvas_width c' = Canvas.img_width img
    ∧ Canvas.canvas_height c' = Canvas.img_height img
    ∧ width tile = Canvas.img_width img
    ∧ height tile = Canvas.img_height img
    ∧ Z.of_nat (length (data tile))
      = Canvas.img_width img * Canvas.img_height img
    ∧ Forall (λ x, Number.is_finite x = true) (data tile).
Proof.
  intros Hread.
  destruct (getElevations_readable img encoding c Hread)
    as (tile & Hrun & Hrest).
  exists tile, (Canvas.mkCanvas (Canvas.canvas_id c) (Canvas.img_width img)
                  (Canvas.img_height img)).
  split; [exact Hrun|]. cbn. auto.
Qed.

Lemma sample_image_readable : Canvas.readable sample_image.
Proof.
  unfold Canvas.readable, sample_image. cbn.
  split; [lia|]. split; [lia|].
  exists [128; 1; 128; 255]. split; [reflexivity|].
  split; [solve_wf | reflexivity].
Defined.

Lemma getElevations_returns_finite_tile_witness :
  Canvas.readable sample_image
  ∧ ∃ tile c',
      Canvas.getElevations sample_image "mapbox"
        (Canvas.mkCanvas 4%positive 300 150) true = (inr tile, c')
      ∧ Canvas.canvas_id c'
        = Canvas.canvas_id (Canvas.mkCanvas 4%positive 300 150)
      ∧ Canvas.canvas_width c' = Canvas.img_width sample_image
      ∧ Canvas.canvas_height c' = Canvas.img_height sample_image
      ∧ width tile = Canvas.img_width sample_image
      ∧ height tile = Canvas.img_height sample_image
      ∧ Z.of_nat (length (data tile))
        = Canvas.img_width sample_image * Canvas.img_height sample_image
      ∧ Forall (λ x, Number.is_finite x = true) (data tile).
Proof.
  exact (conj sample_image_readable
           (getElevations_returns_finite_tile sample_image "mapbox"
              (Canvas.mkCanvas 4%positive 300 150) sample_image_readable)).
Defined.

(** With a context at hand, or one to be had on demand, a call on a
    readable image settles well and leaves a context at hand. *)
Lemma decodeImageModern_then_well (k : Canvas.call) (m : Canvas.module_state) :
  match Canvas.offscreenCanvas m with
  | Some _ => Canvas.offscreenContext m = true
  | None => True
  end →
  Canvas.call_getContext k = true →
  Canvas.readable (Canvas.call_img k) →
  Canvas.settles_well k (Canvas.decodeImageModern_then k m).1
  ∧ match Canvas.offscreenCanvas (Canvas.decodeImageModern_then k m).2 with
    | Some _ =>
        Canvas.offscreenContext (Canvas.decodeImageModern_then k m).2 = true
    | None => True
    end.
Proof.
  intros Hm Hget Hread.
  unfold Canvas.decodeImageModern_then, Canvas.settles_well.
  destruct (Canvas.call_canceled k); [split; [reflexivity | exact Hm]|].
  destruct (Canvas.offscreenCanvas m) as [c|].
  - rewrite Hm.
    destruct (getElevations_readable (Canvas.call_img k)
                (Canvas.call_encoding k) c Hread) as (tile & -> & Hrest).
    cbn. split; [|reflexivity]. exists tile. split; [reflexivity | exact Hrest].
  - rewrite Hget.
    destruct (getElevations_readable (Canvas.call_img k)
                (Canvas.call_encoding k)
                (Canvas.mkCanvas (Canvas.call_new_canvas k)
                   (Canvas.img_width (Canvas.call_img k))
                   (Canvas.img_height (Canvas.call_img k))) Hread)
      as (tile & -> & Hrest).
    cbn. split; [|reflexivity]. exists tile. split; [reflexivity | exact Hrest].
Qed.

Lemma run_well (ks : list Canvas.call) :
  ∀ m : Canvas.module_state,
    match Canvas.offscreenCanvas m with
    | Some _ => Canvas.offscreenContext m = true
    | None => True
    end →
    Forall (λ k, Canvas.call_getContext k = true
                 ∧ Canvas.readable (Canvas.call_img k)) ks →
    Forall2 Canvas.settles_well ks (Canvas.run ks m).1.
Proof.
  induction ks as [|k ks IH]; intros m Hm Hks; cbn [Canvas.run].
  - constructor.
  - apply Forall_cons_1 in Hks as [[Hget Hread] Hks].
    destruct (decodeImageModern_then_well k m Hm Hget Hread) as [Hs Hm1].
    destruct (Canvas.decodeImageModern_then k m) as [s m1].
    specialize (IH m1 Hm1 Hks).
    destruct (Canvas.run ks m1) as [ss m2].
    constructor; assumption.
Qed.

(** X9. In a browser that hands out a context when asked, any series of
    calls of [decodeImageModern] on readable images, started with no
    canvas yet, settles well: a canceled call resolves to [null], every
    other call to a tile of the size of its image with finite cells.
    The canvas shared by the calls does not make them interfere. *)
Theorem decodeImageModern_calls_settle_well (ks : list Canvas.call) :
  Forall (λ k, Canvas.call_getContext k = true
               ∧ Canvas.readable (Canvas.call_img k)) ks →
  Forall2 Canvas.settles_well ks (Canvas.run ks Canvas.initial).1.
Proof. intros Hks. apply run_well; [exact I | exact Hks]. Qed.

Lemma sample_calls_readable :
  Forall (λ k, Canvas.call_getContext k = true
               ∧ Canvas.readable (Canvas.call_img k)) sample_calls.
Proof.
  unfold sample_calls.
  repeat (constructor; [split; [reflexivity | exact sample_image_readable]|]).
  constructor.
Defined.

Lemma decodeImageModern_calls_settle_well_witness :
  Forall (λ k, Canvas.call_getContext k = true
               ∧ Canvas.readable (Canvas.call_img k)) sample_calls
  ∧ Forall2 Canvas.settles_well sample_calls
      (Canvas.run sample_calls Canvas.initial).1.
Proof.
  exact (conj sample_calls_readable
           (decodeImageModern_calls_settle_well sample_calls
              sample_calls_readable)).
Defined.

(** Once a canvas is there without a context, it stays so. *)
Lemma run_without_context (ks : list Canvas.call) :
  ∀ (m : Canvas.module_state) (c : Canvas.canvas),
    Canvas.offscreenCanvas m = Some c →
    Canvas.offscreenContext m = false →
    (Canvas.run ks m).1 = map Canvas.without_context ks
    ∧ Canvas.offscreenContext (Canvas.run ks m).2 = false
    ∧ Canvas.canvas_id <$> Canvas.offscreenCanvas (Canvas.run ks m).2
      = Some (Canvas.canvas_id c).
Proof.
  induction ks as [|k ks IH]; intros m c Hc Hctx; cbn [Canvas.run map].
  - cbn [fst snd]. rewrite Hc. auto.
  - unfold Canvas.decodeImageModern_then, Canvas.without_context at 1.
    destruct (Canvas.call_canceled k).
    + specialize (IH m c Hc Hctx).
      destruct (Canvas.run ks m) as [ss m2]. cbn [fst snd] in *.
      destruct IH as (-> & ? & ?). auto.
    + rewrite Hc, Hctx. cbn [Canvas.getElevations Canvas.canvas_id].
      specialize (IH (Canvas.mkModuleState
                        (Some (Canvas.mkCanvas (Canvas.canvas_id c)
                                 (Canvas.img_width (Canvas.call_img k))
                                 (Canvas.img_height (Canvas.call_img k))))
                        false) _ eq_refl eq_refl).
      cbn [Canvas.canvas_id] in IH.
      destruct (Canvas.run ks _) as [ss m2]. cbn [fst snd] in *.
      destruct IH as (-> & ? & ?). auto.
Qed.

(** Calls that are canceled settle to [null] and leave the module as it
    is. *)
Lemma run_canceled (ks0 : list Canvas.call) :
  Forall (λ k0, Canvas.call_canceled k0 = true) ks0 →
  ∀ (ks : list Canvas.call) (m : Canvas.module_state),
    (Canvas.run (ks0 ++ ks) m).1
    = map Canvas.without_context ks0 ++ (Canvas.run ks m).1
    ∧ (Canvas.run (ks0 ++ ks) m).2 = (Canvas.run ks m).2.
Proof.
  induction 1 as [|k0 ks0 Hk0 _ IH]; intros ks m; [auto|].
  cbn [app Canvas.run map].
  unfold Canvas.decodeImageModern_then, Canvas.without_context at 1.
  rewrite Hk0. specialize (IH ks m).
  destruct (Canvas.run (ks0 ++ ks) m) as [ss m2]. cbn [fst snd] in *.
  destruct IH as [-> ->]. auto.
Qed.

(** X10. A context that could not be had is never asked for again: when
    the first call that is not canceled gets no context from the canvas
    it creates, that call and every later one that is not canceled are
    rejected with "failed to get context", whatever the browser could
    provide by then; the calls that are canceled, before or after,
    resolve to [null]; the canvas created by that call is kept. *)
Theorem decodeImageModern_context_failure_persists
    (ks0 : list Canvas.call) (k : Canvas.call) (ks : list Canvas.call) :
  Forall (λ k0, Canvas.call_canceled k0 = true) ks0 →
  Canvas.call_canceled k = false →
  Canvas.call_getContext k = false →
  (Canvas.run (ks0 ++ k :: ks) Canvas.initial).1
  = map Canvas.without_context (ks0 ++ k :: ks)
  ∧ Canvas.offscreenContext
      (Canvas.run (ks0 ++ k :: ks) Canvas.initial).2 = false
  ∧ Canvas.canvas_id
      <$> Canvas.offscreenCanvas
            (Canvas.run (ks0 ++ k :: ks) Canvas.initial).2
    = Some (Canvas.call_new_canvas k).
Proof.
  intros Hks0 Hcan Hget.
  destruct (run_canceled ks0 Hks0 (k :: ks) Canvas.initial) as [-> ->].
  assert (Hk : Canvas.without_context k
               = Canvas.Rejected (Canvas.Error "failed to get context"))
    by (unfold Canvas.without_context; rewrite Hcan; reflexivity).
  rewrite map_app. cbn [Canvas.run map]. rewrite Hk.
  unfold Canvas.decodeImageModern_then.
  rewrite Hcan, Hget.
  cbn [Canvas.initial Canvas.offscreenCanvas Canvas.getElevations
       Canvas.canvas_id].
  destruct (run_without_context ks
              (Canvas.mkModuleState
                 (Some (Canvas.mkCanvas (Canvas.call_new_canvas k)
                          (Canvas.img_width (Canvas.call_img k))
                          (Canvas.img_height (Canvas.call_img k))))
                 false) _ eq_refl eq_refl) as (Hss & Hctx & Hid).
  cbn [Canvas.canvas_id] in Hid.
  destruct (Canvas.run ks _) as [ss m2]. cbn [fst snd] in *.
  rewrite Hss. auto.
Qed.

Lemma sample_canceled_calls_canceled :
  Forall (λ k0, Canvas.call_canceled k0 = true) sample_canceled_calls.
Proof.
  unfold sample_canceled_calls.
  repeat (constructor; [reflexivity|]). constructor.
Defined.

Lemma decodeImageModern_context_failure_persists_witness :
  Forall (λ k0, Canvas.call_canceled k0 = true) sample_canceled_calls
  ∧ Canvas.call_canceled sample_failing_call = false
  ∧ Canvas.call_getContext sample_failing_call = false
  ∧ (Canvas.run (sample_canceled_calls ++ sample_failing_call :: sample_calls)
       Canvas.initial).1
    = map Canvas.without_context
        (sample_canceled_calls ++ sample_failing_call :: sample_calls)
  ∧ Canvas.offscreenContext
      (Canvas.run (sample_canceled_calls ++ sample_failing_call :: sample_calls)
         Canvas.initial).2
    = false
  ∧ Canvas.canvas_id
      <$> Canvas.offscreenCanvas
            (Canvas.run
               (sample_canceled_calls ++ sample_failing_call :: sample_calls)
               Canvas.initial).2
    = Some (Canvas.call_new_canvas sample_failing_call).
Proof.
  exact (conj sample_canceled_calls_canceled (conj eq_refl (conj eq_refl
           (decodeImageModern_context_failure_persists sample_canceled_calls
              sample_failing_call sample_calls
              sample_canceled_calls_canceled eq_refl eq_refl)))).
Defined.

(** ** Choosing the decoder *)

(** X11. The choice of the decoder can be evaluated in every
    environment: the [typeof] tests keep [self instanceof
    WorkerGlobalScope] from raising a [ReferenceError].  The decoder that
    needs a document is chosen only where there is a window, the one for
    Node only where there is none, and the work is sent to the main
    thread only from a worker. *)
Theorem defaultDecoder_safe (offscreenCanvasSupported : bool)
    (env : Select.environment) :
  ∃ d,
    Select.defaultDecoder offscreenCanvasSupported env = Some d
    ∧ (d = Select.decodeImageModern ↔ offscreenCanvasSupported = true)
    ∧ (d = Select.decodeImageOnMainThread →
       Select.has_WorkerGlobalScope env = true
       ∧ Select.has_self env = true
       ∧ Select.self_instanceof env = true)
    ∧ (d = Select.decodeImageNode → Select.has_window env = false)
    ∧ (d = Select.decodeImageOld → Select.has_window env = true).
Proof.
  destruct env as [wgs self inst win].
  unfold Select.defaultDecoder, Select.isWorker, Select.eval_instanceof,
    Select.isNodeJs.
  cbn [Select.has_WorkerGlobalScope Select.has_self Select.self_instanceof
       Select.has_window].
  destruct offscreenCanvasSupported, wgs, self, inst, win; cbn;
    eexists; (split; [reflexivity|]);
    repeat split; intros; (congruence || reflexivity).
Qed.
